(** * TransactionServer: the ledger engine, embedded and verified

    A shallow embedding of the TypeScript ledger service
    ([src/services/accountService.ts], [src/services/transactionService.ts],
    [src/config/database.ts], [src/utils/idempotency.ts], the history route
    of [src/routes/transactions.ts], the idempotency middleware) over a model
    of the PostgreSQL tables declared in [init.sql].

    Conventions of the model.
    - Money is counted in minor units (hundredths), the grid of the
      [DECIMAL(20, 2)] columns; a JavaScript [number] holding a balance or an
      amount is the integer number of hundredths.  Amounts off that grid and
      magnitudes beyond twenty digits are outside the model.
    - A table is keyed by its primary (or unique) key.  The integrity
      constraints of [init.sql] (PRIMARY KEY, REFERENCES, CHECK) are part of
      the statements' semantics; column widths are not.
    - An identifier handed to a statement is a text that the [UUID] columns
      accept; the refusal of any other text by the database is outside the
      model.
    - [uuidv4()], [new Date()] and [CURRENT_TIMESTAMP] are inputs: the
      identifiers and the clock readings are arguments of the operations.
    - A promise that rejects is a computation that returns [Err]; the
      effects it had on the client's session before rejecting are kept in the
      session, so that ROLLBACK has something to undo. *)

From Stdlib Require Import ZArith List String Ascii Lia Bool.
From stdpp Require Import base gmap strings list sorting.

Local Open Scope string_scope.
Local Open Scope Z_scope.

(** ** Types ([src/types/index.ts]) *)

Inductive Currency := USD | INR.

Inductive TransactionType :=
  DEPOSIT | WITHDRAWAL | TRANSFER_DEBIT | TRANSFER_CREDIT.

Record Account := {
  acct_id : string;
  acct_user_id : string;
  acct_currency : Currency;
  acct_balance : Z;
  acct_created_at : Z;
  acct_updated_at : Z;
  acct_version : Z
}.

Record Transaction := {
  tx_id : string;
  tx_account_id : string;
  tx_type : TransactionType;
  tx_amount : Z;
  tx_balance_after : Z;
  tx_related_transaction_id : option string;
  tx_description : option string;
  tx_created_at : Z
}.

Record RecordTransactionRequest := {
  rt_account_id : string;
  rt_type : TransactionType;
  rt_amount : Z;
  rt_description : option string
}.

Record TransferRequest := {
  tr_from_account_id : string;
  tr_to_account_id : string;
  tr_amount : Z;
  tr_description : option string
}.

#[global] Instance Currency_eq_dec : EqDecision Currency.
Proof. solve_decision. Defined.

#[global] Instance TransactionType_eq_dec : EqDecision TransactionType.
Proof. solve_decision. Defined.

(** ** The tables of [init.sql] *)

(** A row of [accounts]; the primary key [id] is the key of the table. *)
Record AccountRow := {
  row_user_id : string;
  row_currency : Currency;
  row_balance : Z;
  row_created_at : Z;
  row_updated_at : Z;
  row_version : Z
}.

(** A row of [idempotency_keys]; the unique [key_hash] is the key of the
    table. *)
Record IdempotencyKeyRow := {
  ik_request_method : string;
  ik_request_path : string;
  ik_response_status : Z;
  ik_response_body : string;
  ik_created_at : Z;
  ik_expires_at : Z
}.

(** [transactions] is kept in insertion order. *)
Record Db := {
  accounts : gmap string AccountRow;
  transactions : list Transaction;
  idempotency_keys : gmap string IdempotencyKeyRow
}.

(** ** Errors

    The services throw [Error] objects told apart by their message; the
    database driver throws on a violated constraint. *)

Inductive Party := TheAccount | FromAccount | ToAccount.

Inductive DbConstraint :=
| accounts_balance_check
| transactions_pkey
| transactions_account_id_fkey
| transactions_amount_check
| transactions_balance_after_check
| transactions_related_transaction_id_fkey.

Inductive Fault :=
| ConstraintViolation (c : DbConstraint)
| NegativeLimit
| NegativeOffset
| UndefinedRow.

Inductive LedgerError :=
| AccountNotFound (who : Party)
| InsufficientFunds
| CurrencyMismatch
| SameAccount
| VersionConflict
| InternalFailure (f : Fault)
| AppError (statusCode : Z) (text : string).

Definition message (e : LedgerError) : string :=
  match e with
  | AccountNotFound TheAccount => "Account not found"
  | AccountNotFound FromAccount => "From account not found"
  | AccountNotFound ToAccount => "To account not found"
  | InsufficientFunds => "Insufficient funds. Account cannot go negative."
  | CurrencyMismatch => "Cannot transfer between different currencies"
  | SameAccount => "Cannot transfer to the same account"
  | VersionConflict => "Concurrent modification detected. Please retry."
  | InternalFailure _ => "database error"
  | AppError _ text => text
  end.

Inductive Result (A : Type) :=
| Ok (a : A)
| Err (e : LedgerError).

Arguments Ok {A} a.
Arguments Err {A} e.

(** ** A client session and the computations that run on it *)

(** What a [PoolClient] sees between BEGIN and COMMIT: its working copy of
    the tables, the row locks it took (in the order it took them) and the
    transaction's [CURRENT_TIMESTAMP]. *)
Record Session := {
  tables : Db;
  row_locks : list string;
  current_timestamp : Z
}.

Definition Tx (A : Type) : Type := Session -> Result A * Session.

Definition ret {A} (a : A) : Tx A := fun s => (Ok a, s).

Definition throw {A} (e : LedgerError) : Tx A := fun s => (Err e, s).

Definition bind {A B} (m : Tx A) (k : A -> Tx B) : Tx B :=
  fun s =>
    match m s with
    | (Ok a, s') => k a s'
    | (Err e, s') => (Err e, s')
    end.

Notation "'await' x <- m ; k" := (bind m (fun x => k))
  (at level 10, x name, m at level 100, k at level 200,
   format "'[v' 'await'  x  <-  m ; '/' k ']'").

Definition with_tables (s : Session) (d : Db) : Session :=
  {| tables := d; row_locks := row_locks s;
     current_timestamp := current_timestamp s |}.

Definition with_lock (s : Session) (id : string) : Session :=
  {| tables := tables s; row_locks := row_locks s ++ [id];
     current_timestamp := current_timestamp s |}.

(** ** [src/config/database.ts] *)

(** The session of a client after BEGIN. *)
Definition begin (now : Z) (db : Db) : Session :=
  {| tables := db; row_locks := []; current_timestamp := now |}.

(** [transaction]: BEGIN, the callback, then COMMIT; on a throw, ROLLBACK
    and rethrow.  The rolled-back session's tables are dropped. *)
Definition transaction {A} (now : Z) (callback : Tx A) (db : Db)
  : Result A * Db :=
  let client := begin now db in
  match callback client with
  | (Ok result, client') => (Ok result, tables client')
  | (Err error, _) => (Err error, db)
  end.

(** The locks a unit of work requested, in order, whether it committed or
    not. *)
Definition locks_requested {A} (now : Z) (callback : Tx A) (db : Db)
  : list string :=
  row_locks (snd (callback (begin now db))).

(** ** SQL statements on a client

    Each definition is the meaning of one statement text of the services,
    under the constraints of [init.sql]. *)

Definition fault {A} (f : Fault) : Tx A := throw (InternalFailure f).

Definition account_of_row (id : string) (r : AccountRow) : Account :=
  {| acct_id := id; acct_user_id := row_user_id r;
     acct_currency := row_currency r; acct_balance := row_balance r;
     acct_created_at := row_created_at r;
     acct_updated_at := row_updated_at r; acct_version := row_version r |}.

(** [SELECT id, user_id, currency, balance, created_at, updated_at, version
     FROM accounts WHERE id = $1] *)
Definition select_account (id : string) (db : Db) : list Account :=
  match accounts db !! id with
  | Some r => [account_of_row id r]
  | None => []
  end.

(** The same with [FOR UPDATE]: the row returned is locked until the end of
    the unit of work; no row, no lock. *)
Definition select_account_for_update (id : string) : Tx (list Account) :=
  fun s =>
    match select_account id (tables s) with
    | [] => (Ok [], s)
    | rows => (Ok rows, with_lock s id)
    end.

Definition set_accounts (db : Db) (m : gmap string AccountRow) : Db :=
  {| accounts := m; transactions := transactions db;
     idempotency_keys := idempotency_keys db |}.

Definition set_transactions (db : Db) (l : list Transaction) : Db :=
  {| accounts := accounts db; transactions := l;
     idempotency_keys := idempotency_keys db |}.

Definition set_idempotency_keys (db : Db) (m : gmap string IdempotencyKeyRow)
  : Db :=
  {| accounts := accounts db; transactions := transactions db;
     idempotency_keys := m |}.

(** The row that [SET balance = $1, version = version + 1] and the trigger
    [update_accounts_updated_at] make of [r]. *)
Definition updated_row (r : AccountRow) (newBalance now : Z) : AccountRow :=
  {| row_user_id := row_user_id r;
     row_currency := row_currency r;
     row_balance := newBalance;
     row_created_at := row_created_at r;
     row_updated_at := now;
     row_version := row_version r + 1 |}.

(** [UPDATE accounts SET balance = $1, version = version + 1
     WHERE id = $2 AND version = $3 RETURNING id], under
    [CHECK (balance >= 0)]. *)
Definition update_account_balance (newBalance : Z) (accountId : string)
    (version : Z) : Tx (list string) :=
  fun s =>
    match accounts (tables s) !! accountId with
    | Some r =>
        if row_version r =? version then
          if newBalance <? 0 then
            (Err (InternalFailure (ConstraintViolation accounts_balance_check)), s)
          else
            (Ok [accountId],
             with_tables s
               (set_accounts (tables s)
                  (<[accountId := updated_row r newBalance (current_timestamp s)]>
                     (accounts (tables s)))))
        else (Ok [], s)
    | None => (Ok [], s)
    end.

Definition transaction_ids (db : Db) : list string :=
  map tx_id (transactions db).

(** [INSERT INTO transactions (...) VALUES (...)]: the CHECKs on the new
    row, the primary key, then the two foreign keys, which are looked up
    once the row is in the table (a row may name itself, not a row that is
    yet to come). *)
Definition insert_transaction (t : Transaction) : Tx (list Transaction) :=
  fun s =>
    let db := tables s in
    if negb (0 <? tx_amount t) then
      fault (ConstraintViolation transactions_amount_check) s
    else if tx_balance_after t <? 0 then
      fault (ConstraintViolation transactions_balance_after_check) s
    else if bool_decide (tx_id t ∈ transaction_ids db) then
      fault (ConstraintViolation transactions_pkey) s
    else if negb (bool_decide (is_Some (accounts db !! tx_account_id t))) then
      fault (ConstraintViolation transactions_account_id_fkey) s
    else
      let db' := set_transactions db (transactions db ++ [t]) in
      match tx_related_transaction_id t with
      | Some r =>
          if bool_decide (r ∈ transaction_ids db') then
            (Ok [t], with_tables s db')
          else
            fault (ConstraintViolation
                     transactions_related_transaction_id_fkey) s
      | None => (Ok [t], with_tables s db')
      end.

(** [SELECT ... FROM transactions WHERE id = $1] *)
Definition select_transaction (id : string) : Tx (list Transaction) :=
  fun s =>
    (Ok (filter (fun t => tx_id t = id) (transactions (tables s))), s).

(** ** [src/services/accountService.ts] *)

(** [parseFloat(row.balance.toString())] is the identity on hundredths. *)
Definition mapAccount (row : Account) : Account :=
  {| acct_id := acct_id row; acct_user_id := acct_user_id row;
     acct_currency := acct_currency row; acct_balance := acct_balance row;
     acct_created_at := acct_created_at row;
     acct_updated_at := acct_updated_at row;
     acct_version := acct_version row |}.

Definition getAccountById (accountId : string) (db : Db) : option Account :=
  match select_account accountId db with
  | [] => None
  | row :: _ => Some (mapAccount row)
  end.

Definition getAccountWithLock (accountId : string) : Tx (option Account) :=
  await result <- select_account_for_update accountId;
  match result with
  | [] => ret None
  | row :: _ => ret (Some (mapAccount row))
  end.

Definition updateAccountBalance (accountId : string) (newBalance : Z)
    (version : Z) : Tx unit :=
  await result <- update_account_balance newBalance accountId version;
  match result with
  | [] => throw VersionConflict
  | _ => ret tt
  end.

(** ** [src/services/transactionService.ts] *)

Definition mapTransaction (row : Transaction) : Transaction :=
  {| tx_id := tx_id row; tx_account_id := tx_account_id row;
     tx_type := tx_type row; tx_amount := tx_amount row;
     tx_balance_after := tx_balance_after row;
     tx_related_transaction_id := tx_related_transaction_id row;
     tx_description := tx_description row;
     tx_created_at := tx_created_at row |}.

(** [description || null] and [description || fallback]: the empty string
    is falsy. *)
Definition or_null (description : option string) : option string :=
  match description with
  | Some s => if String.eqb s "" then None else Some s
  | None => None
  end.

Definition or_else (description : option string) (fallback : string)
  : string :=
  match description with
  | Some s => if String.eqb s "" then fallback else s
  | None => fallback
  end.

(** [let newBalance] and the branch on [request.type] that sets it. *)
Definition new_balance (request : RecordTransactionRequest)
    (account : Account) : Tx Z :=
  match rt_type request with
  | DEPOSIT => ret (acct_balance account + rt_amount request)
  | _ =>
      let newBalance := acct_balance account - rt_amount request in
      if newBalance <? 0 then throw InsufficientFunds
      else ret newBalance
  end.

(** What the callback of [recordTransaction] does once
    [getAccountWithLock] has answered. *)
Definition recordTransaction_locked (transactionId : string)
    (request : RecordTransactionRequest) (account : option Account)
  : Tx Transaction :=
  match account with
  | None => throw (AccountNotFound TheAccount)
  | Some account =>
      await newBalance <- new_balance request account;
      await _ <- updateAccountBalance (acct_id account) newBalance
                   (acct_version account);
      await result <-
        (fun s => insert_transaction
           {| tx_id := transactionId;
              tx_account_id := acct_id account;
              tx_type := rt_type request;
              tx_amount := rt_amount request;
              tx_balance_after := newBalance;
              tx_related_transaction_id := None;
              tx_description := or_null (rt_description request);
              tx_created_at := current_timestamp s |} s);
      match result with
      | [] => fault UndefinedRow
      | row :: _ => ret (mapTransaction row)
      end
  end.

Definition recordTransaction_callback (transactionId : string)
    (request : RecordTransactionRequest) : Tx Transaction :=
  await account <- getAccountWithLock (rt_account_id request);
  recordTransaction_locked transactionId request account.

Definition recordTransaction (now : Z) (transactionId : string)
    (request : RecordTransactionRequest) (db : Db)
  : Result Transaction * Db :=
  transaction now (recordTransaction_callback transactionId request) db.

(** [[a, b].sort()]: the default comparison of strings by code units. *)
Definition sort_pair (a b : string) : list string :=
  if String.ltb b a then [b; a] else [a; b].

Definition transfer_callback (debitId creditId : string)
    (request : TransferRequest) : Tx (Transaction * Transaction) :=
  let accountIds :=
    sort_pair (tr_from_account_id request) (tr_to_account_id request) in
  await fromAccount <- select_account_for_update (tr_from_account_id request);
  await toAccount <- select_account_for_update (tr_to_account_id request);
  match fromAccount with
  | [] => throw (AccountNotFound FromAccount)
  | fromRow :: _ =>
  match toAccount with
  | [] => throw (AccountNotFound ToAccount)
  | toRow :: _ =>
      let from := mapAccount fromRow in
      let to := mapAccount toRow in
      if negb (bool_decide (acct_currency from = acct_currency to)) then
        throw CurrencyMismatch
      else
      let newFromBalance := acct_balance from - tr_amount request in
      if newFromBalance <? 0 then throw InsufficientFunds
      else
      let newToBalance := acct_balance to + tr_amount request in
      await _ <- updateAccountBalance (acct_id from) newFromBalance
                   (acct_version from);
      await _ <- updateAccountBalance (acct_id to) newToBalance
                   (acct_version to);
      await _ <-
        (fun s => insert_transaction
           {| tx_id := debitId;
              tx_account_id := acct_id from;
              tx_type := TRANSFER_DEBIT;
              tx_amount := tr_amount request;
              tx_balance_after := newFromBalance;
              tx_related_transaction_id := Some creditId;
              tx_description :=
                Some (or_else (tr_description request)
                        ("Transfer to " +:+ acct_user_id to));
              tx_created_at := current_timestamp s |} s);
      await _ <-
        (fun s => insert_transaction
           {| tx_id := creditId;
              tx_account_id := acct_id to;
              tx_type := TRANSFER_CREDIT;
              tx_amount := tr_amount request;
              tx_balance_after := newToBalance;
              tx_related_transaction_id := Some debitId;
              tx_description :=
                Some (or_else (tr_description request)
                        ("Transfer from " +:+ acct_user_id from));
              tx_created_at := current_timestamp s |} s);
      await debitResult <- select_transaction debitId;
      await creditResult <- select_transaction creditId;
      match debitResult, creditResult with
      | debitRow :: _, creditRow :: _ =>
          ret (mapTransaction debitRow, mapTransaction creditRow)
      | _, _ => fault UndefinedRow
      end
  end
  end.

Definition transfer (now : Z) (debitId creditId : string)
    (request : TransferRequest) (db : Db)
  : Result (Transaction * Transaction) * Db :=
  if String.eqb (tr_from_account_id request) (tr_to_account_id request) then
    (Err SameAccount, db)
  else transaction now (transfer_callback debitId creditId request) db.

Definition getBalance (accountId : string) (db : Db) : Result Z :=
  match getAccountById accountId db with
  | None => Err (AccountNotFound TheAccount)
  | Some account => Ok (acct_balance account)
  end.

(** *** History *)

(** A JavaScript [number] that counts pages or rows: an integer, or NaN
    (what [parseInt] gives for text without digits). *)
Inductive JsNumber := NaN | Num (z : Z).

Record TransactionHistoryQuery := {
  hq_account_id : string;
  hq_page : option JsNumber;
  hq_limit : option JsNumber
}.

Record PaginatedResponse := {
  pr_data : list Transaction;
  pr_page : Z;
  pr_limit : Z;
  pr_total : Z;
  pr_total_pages : Z
}.

(** [x || fallback] on an optional number: [undefined], [NaN] and [0] are
    falsy. *)
Definition or_number (x : option JsNumber) (fallback : Z) : Z :=
  match x with
  | Some (Num z) => if z =? 0 then fallback else z
  | _ => fallback
  end.

(** [Math.ceil(a / b)] for integers [a] and [b <> 0]. *)
Definition ceil_div (a b : Z) : Z := - ((- a) / b).

Definition of_account (account_id : string) (t : Transaction) : Prop :=
  tx_account_id t = account_id.

#[global] Instance of_account_dec account_id t :
  Decision (of_account account_id t).
Proof. unfold of_account. apply _. Defined.

(** [ORDER BY created_at DESC]: [newer_first t1 t2] when [t1] may come
    before [t2]. *)
Definition newer_first (t1 t2 : Transaction) : Prop :=
  tx_created_at t2 <= tx_created_at t1.

#[global] Instance newer_first_dec t1 t2 : Decision (newer_first t1 t2).
Proof. unfold newer_first. apply _. Defined.

(** [SELECT COUNT( * ) as total FROM transactions WHERE account_id = $1] *)
Definition count_transactions (account_id : string) (db : Db) : Z :=
  Z.of_nat (length (filter (of_account account_id) (transactions db))).

(** [SELECT ... FROM transactions WHERE account_id = $1
     ORDER BY created_at DESC LIMIT $2 OFFSET $3]; the executor refuses a
    negative OFFSET, then a negative LIMIT. *)
Definition select_history (account_id : string) (limit offset : Z) (db : Db)
  : Result (list Transaction) :=
  if offset <? 0 then Err (InternalFailure NegativeOffset)
  else if limit <? 0 then Err (InternalFailure NegativeLimit)
  else
    Ok (take (Z.to_nat limit)
          (drop (Z.to_nat offset)
             (merge_sort newer_first
                (filter (of_account account_id) (transactions db))))).

Definition getTransactionHistory (queryParams : TransactionHistoryQuery)
    (db : Db) : Result PaginatedResponse :=
  let page := or_number (hq_page queryParams) 1 in
  let limit := Z.min (or_number (hq_limit queryParams) 20) 100 in
  let offset := (page - 1) * limit in
  let total := count_transactions (hq_account_id queryParams) db in
  match select_history (hq_account_id queryParams) limit offset db with
  | Err e => Err e
  | Ok rows =>
      Ok {| pr_data := map mapTransaction rows;
            pr_page := page;
            pr_limit := limit;
            pr_total := total;
            pr_total_pages := ceil_div total limit |}
  end.

(** *** The history route ([src/routes/transactions.ts]) *)

Definition is_space (c : ascii) : bool :=
  let n := Z.of_N (N_of_ascii c) in
  (n =? 32) || ((9 <=? n) && (n <=? 13)).

Definition digit_of (c : ascii) : option Z :=
  let n := Z.of_N (N_of_ascii c) in
  if (48 <=? n) && (n <=? 57) then Some (n - 48) else None.

Fixpoint skip_spaces (s : string) : string :=
  match s with
  | String c rest => if is_space c then skip_spaces rest else s
  | EmptyString => s
  end.

(** The digits at the head of [s], read in base ten onto [acc]. *)
Fixpoint read_digits (acc : Z) (s : string) : Z :=
  match s with
  | String c rest =>
      match digit_of c with
      | Some d => read_digits (10 * acc + d) rest
      | None => acc
      end
  | EmptyString => acc
  end.

Definition starts_with_digit (s : string) : bool :=
  match s with
  | String c _ => bool_decide (is_Some (digit_of c))
  | EmptyString => false
  end.

(** [parseInt(s, 10)] *)
Definition parseInt (s : string) : JsNumber :=
  match skip_spaces s with
  | String "-" rest =>
      if starts_with_digit rest then Num (- read_digits 0 rest) else NaN
  | String "+" rest =>
      if starts_with_digit rest then Num (read_digits 0 rest) else NaN
  | rest => if starts_with_digit rest then Num (read_digits 0 rest) else NaN
  end.

(** [x < 1] on a number; a comparison with NaN is false. *)
Definition less_than_one (x : JsNumber) : bool :=
  match x with
  | Num z => z <? 1
  | NaN => false
  end.

(** [req.query.page ? parseInt(req.query.page, 10) : fallback]; the empty
    text is falsy. *)
Definition query_number (q : option string) (fallback : Z) : JsNumber :=
  match q with
  | Some text => if String.eqb text "" then Num fallback else parseInt text
  | None => Num fallback
  end.

Definition history_route (accountId : string) (query_page query_limit :
    option string) (db : Db) : Result PaginatedResponse :=
  let page := query_number query_page 1 in
  let limit := query_number query_limit 20 in
  if less_than_one page || less_than_one limit then
    Err (AppError 400 "Page and limit must be positive integers")
  else
    getTransactionHistory
      {| hq_account_id := accountId; hq_page := Some page;
         hq_limit := Some limit |} db.

(** ** [src/utils/idempotency.ts] *)

(** [createHash('sha256').update(text).digest('hex')]: SHA-256 (FIPS 180-4)
    of the bytes of the text, in lower-case hexadecimal.  Words are integers
    below [2^32]. *)
Module SHA256.

Definition w32 (x : Z) : Z := x mod 4294967296.

Definition add32 (a b : Z) : Z := w32 (a + b).

Definition rotr (n x : Z) : Z :=
  Z.lor (Z.shiftr x n) (w32 (Z.shiftl x (32 - n))).

Definition Ch (x y z : Z) : Z :=
  Z.lxor (Z.land x y) (Z.land (Z.lxor x 4294967295) z).

Definition Maj (x y z : Z) : Z :=
  Z.lxor (Z.lxor (Z.land x y) (Z.land x z)) (Z.land y z).

Definition Sigma0 (x : Z) : Z :=
  Z.lxor (Z.lxor (rotr 2 x) (rotr 13 x)) (rotr 22 x).

Definition Sigma1 (x : Z) : Z :=
  Z.lxor (Z.lxor (rotr 6 x) (rotr 11 x)) (rotr 25 x).

Definition sigma0 (x : Z) : Z :=
  Z.lxor (Z.lxor (rotr 7 x) (rotr 18 x)) (Z.shiftr x 3).

Definition sigma1 (x : Z) : Z :=
  Z.lxor (Z.lxor (rotr 17 x) (rotr 19 x)) (Z.shiftr x 10).

Definition K : list Z :=
  [1116352408; 1899447441; 3049323471; 3921009573;
   961987163; 1508970993; 2453635748; 2870763221;
   3624381080; 310598401; 607225278; 1426881987;
   1925078388; 2162078206; 2614888103; 3248222580;
   3835390401; 4022224774; 264347078; 604807628;
   770255983; 1249150122; 1555081692; 1996064986;
   2554220882; 2821834349; 2952996808; 3210313671;
   3336571891; 3584528711; 113926993; 338241895;
   666307205; 773529912; 1294757372; 1396182291;
   1695183700; 1986661051; 2177026350; 2456956037;
   2730485921; 2820302411; 3259730800; 3345764771;
   3516065817; 3600352804; 4094571909; 275423344;
   430227734; 506948616; 659060556; 883997877;
   958139571; 1322822218; 1537002063; 1747873779;
   1955562222; 2024104815; 2227730452; 2361852424;
   2428436474; 2756734187; 3204031479; 3329325298].

Definition H0 : list Z :=
  [1779033703; 3144134277; 1013904242; 2773480762;
   1359893119; 2600822924; 528734635; 1541459225].

(** [n] bytes of [x], most significant first. *)
Fixpoint be_bytes (n : nat) (x : Z) : list Z :=
  match n with
  | O => []
  | S n' => (Z.shiftr x (8 * Z.of_nat n')) mod 256 :: be_bytes n' x
  end.

Definition pad (msg : list Z) : list Z :=
  let len := Z.of_nat (length msg) in
  msg ++ [128] ++ repeat 0 (Z.to_nat ((55 - len) mod 64))
      ++ be_bytes 8 (8 * len).

Fixpoint words (bytes : list Z) : list Z :=
  match bytes with
  | a :: b :: c :: d :: rest =>
      (a * 16777216 + b * 65536 + c * 256 + d) :: words rest
  | _ => []
  end.

(** The message schedule, grown from the sixteen words of a block;
    [recent] holds the words so far, last first. *)
Fixpoint schedule (n : nat) (recent : list Z) : list Z :=
  match n with
  | O => rev recent
  | S n' =>
      let w := add32 (add32 (sigma1 (nth 1 recent 0)) (nth 6 recent 0))
                     (add32 (sigma0 (nth 14 recent 0)) (nth 15 recent 0)) in
      schedule n' (w :: recent)
  end.

Definition round (st : list Z) (kw : Z * Z) : list Z :=
  match st with
  | [a; b; c; d; e; f; g; h] =>
      let t1 := add32 (add32 (add32 h (Sigma1 e)) (Ch e f g))
                      (add32 (fst kw) (snd kw)) in
      let t2 := add32 (Sigma0 a) (Maj a b c) in
      [add32 t1 t2; a; b; c; add32 d t1; e; f; g]
  | _ => st
  end.

Definition compress (hash block : list Z) : list Z :=
  let w := schedule 48 (rev block) in
  let st := fold_left round (combine K w) hash in
  map (fun p => add32 (fst p) (snd p)) (combine hash st).

Fixpoint blocks (n : nat) (hash ws : list Z) : list Z :=
  match n with
  | O => hash
  | S n' => blocks n' (compress hash (firstn 16 ws)) (skipn 16 ws)
  end.

Definition digest (msg : list Z) : list Z :=
  let ws := words (pad msg) in
  blocks (length ws / 16) H0 ws.

Definition hex_digit (x : Z) : ascii :=
  ascii_of_N (Z.to_N (if x <? 10 then 48 + x else 87 + x)).

Fixpoint hex (n : nat) (x : Z) : string :=
  match n with
  | O => EmptyString
  | S n' =>
      String (hex_digit ((Z.shiftr x (4 * Z.of_nat n')) mod 16)) (hex n' x)
  end.

Definition bytes_of (text : string) : list Z :=
  map (fun c => Z.of_N (N_of_ascii c)) (list_ascii_of_string text).

Definition sha256_hex (text : string) : string :=
  fold_right (fun w acc => hex 8 w +:+ acc) EmptyString
    (digest (bytes_of text)).

End SHA256.

Definition generateIdempotencyKeyHash (method path key : string) : string :=
  let combined := method +:+ ":" +:+ path +:+ ":" +:+ key in
  SHA256.sha256_hex combined.

Record IdempotencyRecord := {
  response_status : Z;
  response_body : string
}.

(** [SELECT response_status, response_body FROM idempotency_keys
     WHERE key_hash = $1 AND expires_at > CURRENT_TIMESTAMP] *)
Definition getIdempotencyRecord (now : Z) (keyHash : string) (db : Db)
  : option IdempotencyRecord :=
  match idempotency_keys db !! keyHash with
  | Some r =>
      if now <? ik_expires_at r then
        Some {| response_status := ik_response_status r;
                response_body := ik_response_body r |}
      else None
  | None => None
  end.

(** [INSERT INTO idempotency_keys (...) VALUES (...)
     ON CONFLICT (key_hash) DO NOTHING] *)
Definition insert_idempotency_key (keyHash : string) (r : IdempotencyKeyRow)
    (db : Db) : Db :=
  match idempotency_keys db !! keyHash with
  | Some _ => db
  | None => set_idempotency_keys db (<[keyHash := r]> (idempotency_keys db))
  end.

(** Times are in milliseconds; [date] is the server's [new Date()], [now]
    the database's clock; a body is kept as its JSON text. *)
Definition storeIdempotencyRecord (date now : Z)
    (keyHash method path : string) (status : Z) (body : string) (db : Db)
  : Db :=
  let expiresAt := date + 24 * 3600000 in
  insert_idempotency_key keyHash
    {| ik_request_method := method; ik_request_path := path;
       ik_response_status := status; ik_response_body := body;
       ik_created_at := now; ik_expires_at := expiresAt |} db.

(** The same on a [client] that was passed in. *)
Definition storeIdempotencyRecord_on_client (date : Z)
    (keyHash method path : string) (status : Z) (body : string) : Tx unit :=
  fun s =>
    (Ok tt,
     with_tables s
       (storeIdempotencyRecord date (current_timestamp s) keyHash method path
          status body (tables s))).

(** One call of [storeIdempotencyRecord], as data. *)
Record StoreCall := {
  sc_date : Z;
  sc_now : Z;
  sc_keyHash : string;
  sc_method : string;
  sc_path : string;
  sc_status : Z;
  sc_body : string
}.

Definition run_store (c : StoreCall) (db : Db) : Db :=
  storeIdempotencyRecord (sc_date c) (sc_now c) (sc_keyHash c) (sc_method c)
    (sc_path c) (sc_status c) (sc_body c) db.

(** Stores that race: each is one statement, so a run is some order of
    them. *)
Definition run_stores (calls : list StoreCall) (db : Db) : Db :=
  fold_left (fun d c => run_store c d) calls db.

(** The row a call writes when its hash is free. *)
Definition row_of_call (c : StoreCall) : IdempotencyKeyRow :=
  {| ik_request_method := sc_method c; ik_request_path := sc_path c;
     ik_response_status := sc_status c; ik_response_body := sc_body c;
     ik_created_at := sc_now c; ik_expires_at := sc_date c + 24 * 3600000 |}.

(** *** The idempotency middleware ([src/middleware/idempotency.ts]) *)

Record Request := {
  req_method : string;
  req_path : string;
  req_idempotency_key : option string;
  req_body : string
}.

(** What the middleware does with a request: answer from the cache, or
    call [next()] (with the hash under which the answer will be stored). *)
Inductive Handled :=
| Cached (status : Z) (body : string)
| Next (keyHash : option string).

Definition idempotencyMiddleware (now : Z) (req : Request) (db : Db)
  : Handled :=
  match req_idempotency_key req with
  | None => Next None
  | Some idempotencyKey =>
      if String.eqb idempotencyKey "" then Next None
      else
        let keyHash :=
          generateIdempotencyKeyHash (req_method req) (req_path req)
            idempotencyKey in
        match getIdempotencyRecord now keyHash db with
        | Some existingRecord =>
            Cached (response_status existingRecord)
                   (response_body existingRecord)
        | None => Next (Some keyHash)
        end
  end.

(** No stored balance is negative. *)
Definition nonneg_balances (db : Db) : Prop :=
  forall id r, accounts db !! id = Some r -> 0 <= row_balance r.

(** A computation that keeps a property of the tables at its end, whether
    it returns or throws. *)
Definition preserves {A} (P : Db -> Prop) (m : Tx A) : Prop :=
  forall s, P (tables s) -> P (tables (snd (m s))).

(** Two sessions with the same tables and clock, whatever their locks. *)
Definition same_data (s1 s2 : Session) : Prop :=
  tables s1 = tables s2 /\ current_timestamp s1 = current_timestamp s2.

(** A computation whose result and writes do not depend on the locks
    held. *)
Definition lock_blind {A} (m : Tx A) : Prop :=
  forall s1 s2, same_data s1 s2 ->
    fst (m s1) = fst (m s2) /\ same_data (snd (m s1)) (snd (m s2)).

(** ** Requests in flight at once

    Every request runs [recordTransaction] on a client of its own, under
    READ COMMITTED: a statement sees what is committed when it starts.
    [SELECT ... FOR UPDATE] waits while another unit of work holds the row;
    the holder keeps the row until its COMMIT or ROLLBACK.  A request moves
    twice: it is granted the lock and reads the account, then it runs the
    rest of its callback and ends its unit of work. *)
Module Concurrent.

Record Job := {
  job_now : Z;
  job_transactionId : string;
  job_request : RecordTransactionRequest
}.

Inductive Phase :=
| Waiting
| Holding (account : option Account) (locks : list string)
| Finished (outcome : Result Transaction).

Record World := {
  committed : Db;
  phases : list Phase
}.

Definition held (p : Phase) : list string :=
  match p with
  | Holding _ locks => locks
  | _ => []
  end.

Definition locked (id : string) (w : World) : bool :=
  bool_decide (id ∈ concat (map held (phases w))).

(** The next move of request [i], if it has one. *)
Definition step (jobs : list Job) (i : nat) (w : World) : option World :=
  match jobs !! i, phases w !! i with
  | Some job, Some Waiting =>
      let accountId := rt_account_id (job_request job) in
      if locked accountId w then None
      else
        match getAccountWithLock accountId
                (begin (job_now job) (committed w)) with
        | (Ok account, client) =>
            Some {| committed := committed w;
                    phases := <[i := Holding account (row_locks client)]>
                                (phases w) |}
        | (Err e, _) =>
            Some {| committed := committed w;
                    phases := <[i := Finished (Err e)]> (phases w) |}
        end
  | Some job, Some (Holding account locks) =>
      let '(outcome, db) :=
        transaction (job_now job)
          (recordTransaction_locked (job_transactionId job)
             (job_request job) account)
          (committed w) in
      Some {| committed := db;
              phases := <[i := Finished outcome]> (phases w) |}
  | _, _ => None
  end.

(** A schedule names the request that moves next. *)
Fixpoint run (jobs : list Job) (schedule : list nat) (w : World)
  : option World :=
  match schedule with
  | [] => Some w
  | i :: rest =>
      match step jobs i w with
      | Some w' => run jobs rest w'
      | None => None
      end
  end.

Definition start (jobs : list Job) (db : Db) : World :=
  {| committed := db; phases := map (fun _ => Waiting) jobs |}.

Definition is_finished (p : Phase) : bool :=
  match p with
  | Finished _ => true
  | _ => false
  end.

Definition succeeded (p : Phase) : bool :=
  match p with
  | Finished (Ok _) => true
  | _ => false
  end.

Definition all_finished (w : World) : bool := forallb is_finished (phases w).

Definition successes (w : World) : Z :=
  Z.of_nat (length (filter (fun p => succeeded p = true) (phases w))).

Definition withdrawal (accountId : string) (amount : Z)
    (idn : string * Z) : Job :=
  {| job_now := snd idn;
     job_transactionId := fst idn;
     job_request := {| rt_account_id := accountId; rt_type := WITHDRAWAL;
                       rt_amount := amount; rt_description := None |} |}.

Definition balance_of (accountId : string) (db : Db) : Z :=
  match accounts db !! accountId with
  | Some r => row_balance r
  | None => 0
  end.

(** How many moves a request still has to make. *)
Definition remaining (p : Phase) : nat :=
  match p with
  | Waiting => 2
  | Holding _ _ => 1
  | Finished _ => 0
  end.

Definition todo (w : World) : nat := sum_list (map remaining (phases w)).

(** What holds of every world that [jobs], withdrawals of [amount] from
    [accountId] (balance [initial] at the start), can reach; [r] is the
    committed row of the account. *)
Record Invariant (accountId : string) (amount initial : Z)
    (jobs : list Job) (w : World) (r : AccountRow) : Prop := {
  inv_length : length (phases w) = length jobs;
  inv_row : accounts (committed w) !! accountId = Some r;
  inv_balance : row_balance r = initial - amount * successes w;
  inv_nonneg : 0 <= row_balance r;
  inv_holder : forall i account locks,
    phases w !! i = Some (Holding account locks) ->
    account = Some (account_of_row accountId r) /\ locks = [accountId];
  inv_single : forall i j account locks account' locks',
    phases w !! i = Some (Holding account locks) ->
    phases w !! j = Some (Holding account' locks') -> i = j;
  inv_failed : forall i e,
    phases w !! i = Some (Finished (Err e)) ->
    e = InsufficientFunds /\ row_balance r < amount;
  inv_fresh : forall i job,
    jobs !! i = Some job ->
    (forall outcome, phases w !! i <> Some (Finished outcome)) ->
    job_transactionId job ∉ transaction_ids (committed w)
}.

End Concurrent.

(** ** Transfers in flight at once, as far as their locks go

    A transfer asks for its locks one at a time, in the order in which its
    callback issues [SELECT ... FOR UPDATE]; it waits while another transfer
    holds the row it asks for, and keeps what it was granted until its unit
    of work ends. *)
Module Locking.

Record Client := {
  cl_request : TransferRequest;
  cl_granted : nat;
  cl_ended : bool
}.

(** The locks the callback of [c] asks for on [db], in order; the
    identifiers of the rows to come and the clock play no part in them. *)
Definition wanted (db : Db) (c : Client) : list string :=
  locks_requested 0 (transfer_callback "" "" (cl_request c)) db.

Definition holds (db : Db) (c : Client) : list string :=
  if cl_ended c then [] else take (cl_granted c) (wanted db c).

Definition held_by_others (db : Db) (i : nat) (clients : list Client)
  : list string :=
  concat (map (holds db) (take i clients ++ drop (S i) clients)).

(** The next move of client [i]: it is granted the next lock it asks for,
    unless another client holds it; with all its locks granted, it ends its
    unit of work. *)
Definition step (db : Db) (i : nat) (clients : list Client)
  : option (list Client) :=
  match clients !! i with
  | Some c =>
      if cl_ended c then None
      else
        match wanted db c !! cl_granted c with
        | Some id =>
            if bool_decide (id ∈ held_by_others db i clients) then None
            else
              Some (<[i := {| cl_request := cl_request c;
                              cl_granted := S (cl_granted c);
                              cl_ended := false |}]> clients)
        | None =>
            Some (<[i := {| cl_request := cl_request c;
                            cl_granted := cl_granted c;
                            cl_ended := true |}]> clients)
        end
  | None => None
  end.

Fixpoint run (db : Db) (schedule : list nat) (clients : list Client)
  : option (list Client) :=
  match schedule with
  | [] => Some clients
  | i :: rest =>
      match step db i clients with
      | Some clients' => run db rest clients'
      | None => None
      end
  end.

Definition start (requests : list TransferRequest) : list Client :=
  map (fun r => {| cl_request := r; cl_granted := 0; cl_ended := false |})
    requests.

(** Some client has not ended, and none can move. *)
Definition deadlocked (db : Db) (clients : list Client) : bool :=
  negb (forallb cl_ended clients) &&
  forallb (fun i => bool_decide (step db i clients = None))
    (seq 0 (length clients)).

End Locking.

(** ** Sample data *)

Definition sample_row (user : string) (c : Currency) (b v : Z) : AccountRow :=
  {| row_user_id := user; row_currency := c; row_balance := b;
     row_created_at := 0; row_updated_at := 0; row_version := v |}.

(** Accounts [a] (USD, 1000.00), [b] (USD, empty) and [c] (INR, 50.00). *)
Definition sample_db : Db :=
  {| accounts := <["a" := sample_row "alice" USD 100000 1]>
                   (<["b" := sample_row "bob" USD 0 0]>
                      (<["c" := sample_row "carol" INR 5000 3]> ∅));
     transactions := [];
     idempotency_keys := ∅ |}.

Definition sample_session : Session := begin 7 sample_db.

Definition sample_deposit : RecordTransactionRequest :=
  {| rt_account_id := "a"; rt_type := DEPOSIT; rt_amount := 50000;
     rt_description := Some "Test deposit" |}.

Definition sample_transfer (from to : string) : TransferRequest :=
  {| tr_from_account_id := from; tr_to_account_id := to;
     tr_amount := 30000; tr_description := None |}.

Definition sample_posting (id account_id : string) (created_at : Z)
  : Transaction :=
  {| tx_id := id; tx_account_id := account_id; tx_type := DEPOSIT;
     tx_amount := 100; tx_balance_after := 100;
     tx_related_transaction_id := None; tx_description := None;
     tx_created_at := created_at |}.

(** [sample_db] with three postings on [a] and one on [b]. *)
Definition sample_ledger : Db :=
  set_transactions sample_db
    [sample_posting "1" "a" 5; sample_posting "2" "b" 6;
     sample_posting "3" "a" 9; sample_posting "4" "a" 7].

Definition history_query (account_id : string) (page limit : option JsNumber)
  : TransactionHistoryQuery :=
  {| hq_account_id := account_id; hq_page := page; hq_limit := limit |}.

(** A page or a limit that is missing, NaN, or an integer from zero up. *)
Definition not_negative (x : option JsNumber) : Prop :=
  match x with
  | Some (Num z) => 0 <= z
  | _ => True
  end.

Definition sample_store (h body : string) (status date : Z) : StoreCall :=
  {| sc_date := date; sc_now := date; sc_keyHash := h; sc_method := "POST";
     sc_path := "/api/transactions"; sc_status := status; sc_body := body |}.

Definition sample_request (body : string) : Request :=
  {| req_method := "POST"; req_path := "/api/transactions";
     req_idempotency_key := Some "test-key-123"; req_body := body |}.

(** Three withdrawals: their identifiers and the times of their BEGIN. *)
Definition sample_withdrawals : list (string * Z) :=
  [("t1", 1); ("t2", 2); ("t3", 3)].

(** ** The rest of the services

    What follows embeds the functions that the statements above do not
    reach: account creation and lookup, the error handler, the request
    schemas and the routes that call the services. *)

(** *** Errors as the objects that are thrown
    ([src/middleware/errorHandler.ts]) *)

(** [new Error(text)] (also what the database driver throws) and
    [new AppError(statusCode, text)]. *)
Inductive JsError :=
| PlainError (text : string)
| AppErrorObject (statusCode : Z) (text : string).

Definition error_text (e : JsError) : string :=
  match e with
  | PlainError text => text
  | AppErrorObject _ text => text
  end.

Definition quoted (name : string) : string :=
  String (ascii_of_nat 34) (name +:+ String (ascii_of_nat 34) EmptyString).

Definition check_violation (table name : string) : string :=
  "new row for relation " +:+ quoted table
    +:+ " violates check constraint " +:+ quoted name.

Definition unique_violation (name : string) : string :=
  "duplicate key value violates unique constraint " +:+ quoted name.

Definition foreign_key_violation (table name : string) : string :=
  "insert or update on table " +:+ quoted table
    +:+ " violates foreign key constraint " +:+ quoted name.

(** The message of the driver's error for each fault. *)
Definition fault_text (f : Fault) : string :=
  match f with
  | ConstraintViolation accounts_balance_check =>
      check_violation "accounts" "accounts_balance_check"
  | ConstraintViolation transactions_pkey =>
      unique_violation "transactions_pkey"
  | ConstraintViolation transactions_account_id_fkey =>
      foreign_key_violation "transactions" "transactions_account_id_fkey"
  | ConstraintViolation transactions_amount_check =>
      check_violation "transactions" "transactions_amount_check"
  | ConstraintViolation transactions_balance_after_check =>
      check_violation "transactions" "transactions_balance_after_check"
  | ConstraintViolation transactions_related_transaction_id_fkey =>
      foreign_key_violation "transactions"
        "transactions_related_transaction_id_fkey"
  | NegativeLimit => "LIMIT must not be negative"
  | NegativeOffset => "OFFSET must not be negative"
  | UndefinedRow => "Cannot read properties of undefined (reading 'id')"
  end.

(** The object behind an error of the services. *)
Definition thrown (e : LedgerError) : JsError :=
  match e with
  | AppError statusCode text => AppErrorObject statusCode text
  | InternalFailure f => PlainError (fault_text f)
  | _ => PlainError (message e)
  end.

(** [text.includes(needle)] *)
Fixpoint includes (needle text : string) : bool :=
  String.prefix needle text ||
  match text with
  | String _ rest => includes needle rest
  | EmptyString => false
  end.

(** [errorHandler]: the status and the [error] field of the answer. *)
Definition errorHandler (err : JsError) : Z * string :=
  match err with
  | AppErrorObject statusCode text => (statusCode, text)
  | PlainError text =>
      if includes "Concurrent modification" text then
        (409, "Concurrent modification detected. Please retry.")
      else if includes "Insufficient funds" text then (400, text)
      else (500, "Internal server error")
  end.

(** *** [accountService.ts]: creation and lookup by owner *)

Record CreateAccountRequest := {
  ca_user_id : string;
  ca_currency : Currency
}.

(** How a promise settles. *)
Inductive Settled (A : Type) :=
| Fulfilled (a : A)
| Rejected (e : JsError).

Arguments Fulfilled {A} a.
Arguments Rejected {A} e.

(** The rows of [accounts] with [user_id = $1 AND currency = $2]. *)
Definition owned_by (user_id : string) (currency : Currency) (db : Db)
  : gmap string AccountRow :=
  filter (fun p => row_user_id (snd p) = user_id /\
                   row_currency (snd p) = currency) (accounts db).

(** [SELECT ... FROM accounts WHERE user_id = $1 AND currency = $2] *)
Definition select_accounts_of (user_id : string) (currency : Currency)
    (db : Db) : list Account :=
  map (fun p => account_of_row (fst p) (snd p))
    (map_to_list (owned_by user_id currency db)).

Definition new_account_row (user_id : string) (currency : Currency) (now : Z)
  : AccountRow :=
  {| row_user_id := user_id; row_currency := currency; row_balance := 0;
     row_created_at := now; row_updated_at := now; row_version := 0 |}.

(** [INSERT INTO accounts (user_id, currency, balance, version)
     VALUES ($1, $2, 0.00, 0) RETURNING ...]; [id] is what
    [gen_random_uuid()] gives; the primary key and
    [UNIQUE(user_id, currency)] guard the table. *)
Definition insert_account (id : string) (now : Z) (user_id : string)
    (currency : Currency) (db : Db) : Settled (list Account) * Db :=
  if bool_decide (is_Some (accounts db !! id)) then
    (Rejected (PlainError (unique_violation "accounts_pkey")), db)
  else
    match select_accounts_of user_id currency db with
    | _ :: _ =>
        (Rejected (PlainError
                     (unique_violation "accounts_user_id_currency_key")), db)
    | [] =>
        let r := new_account_row user_id currency now in
        (Fulfilled [account_of_row id r],
         set_accounts db (<[id := r]> (accounts db)))
    end.

Definition createAccount (id : string) (now : Z)
    (request : CreateAccountRequest) (db : Db) : Settled Account * Db :=
  match insert_account id now (ca_user_id request) (ca_currency request) db
  with
  | (Fulfilled [], db') =>
      (Rejected (PlainError "Failed to create account"), db')
  | (Fulfilled (row :: _), db') => (Fulfilled (mapAccount row), db')
  | (Rejected e, db') => (Rejected e, db')
  end.

Definition getAccountByUserIdAndCurrency (userId : string)
    (currency : Currency) (db : Db) : option Account :=
  match select_accounts_of userId currency db with
  | [] => None
  | row :: _ => Some (mapAccount row)
  end.

(** *** [routes/accounts.ts] and the balance route *)

(** [POST /api/accounts], the body having passed its schema: the answer,
    or what the handler throws. *)
Definition post_account (id : string) (now : Z)
    (request : CreateAccountRequest) (db : Db)
  : Settled (Z * Account) * Db :=
  match createAccount id now request db with
  | (Fulfilled account, db') => (Fulfilled (201, account), db')
  | (Rejected error, db') =>
      if includes "unique constraint" (error_text error) then
        (Rejected (AppErrorObject 409
                     "Account already exists for this user and currency"),
         db')
      else (Rejected error, db')
  end.

(** [GET /api/accounts/:accountId] *)
Definition get_account (accountId : string) (db : Db) : Settled Account :=
  match getAccountById accountId db with
  | None => Rejected (AppErrorObject 404 "Account not found")
  | Some account => Fulfilled account
  end.

(** [GET /api/transactions/:accountId/balance] *)
Definition get_balance (accountId : string) (db : Db) : Settled Z :=
  match getBalance accountId db with
  | Ok balance => Fulfilled balance
  | Err e =>
      if includes "not found" (error_text (thrown e)) then
        Rejected (AppErrorObject 404 (error_text (thrown e)))
      else Rejected (thrown e)
  end.

(** *** [middleware/validation.ts]

    A request body is the value that [express.json()] parsed; a number is
    kept in hundredths like every amount.  Of the schema library, the
    checks are those the three schemas use; what makes a text a uuid is
    left as [is_uuid]. *)

Inductive Json :=
| JNull
| JBool (b : bool)
| JNumber (n : Z)
| JString (s : string)
| JNested.

(** A body: an object with its fields, or any other value.  The schemas
    look one level deep, so an array or object inside a field is
    [JNested]. *)
Inductive Body :=
| JObject (fields : list (string * Json))
| NotAnObject.

(** [body[name]] for an object's fields, each key once. *)
Fixpoint field (name : string) (fields : list (string * Json))
  : option Json :=
  match fields with
  | [] => None
  | (key, value) :: rest =>
      if String.eqb key name then Some value else field name rest
  end.

Inductive IssueCode :=
  invalid_type | too_small | invalid_enum_value | invalid_string.

Record Issue := {
  issue_path : string;
  issue_code : IssueCode
}.

(** A check of one field: [None] when the value passes. *)
Definition Check : Type := option Json -> option IssueCode.

(** [z.string().min(1)] *)
Definition z_string_min1 : Check := fun v =>
  match v with
  | Some (JString s) => if String.eqb s "" then Some too_small else None
  | _ => Some invalid_type
  end.

(** [z.enum(values)] *)
Definition z_enum (values : list string) : Check := fun v =>
  match v with
  | Some (JString s) =>
      if bool_decide (s ∈ values) then None else Some invalid_enum_value
  | _ => Some invalid_type
  end.

(** [z.number().positive()] *)
Definition z_number_positive : Check := fun v =>
  match v with
  | Some (JNumber n) => if 0 <? n then None else Some too_small
  | _ => Some invalid_type
  end.

(** [z.string().optional()] *)
Definition z_string_optional : Check := fun v =>
  match v with
  | None => None
  | Some (JString _) => None
  | _ => Some invalid_type
  end.

Section Schemas.

Variable is_uuid : string -> bool.

(** [z.string().uuid()] *)
Definition z_string_uuid : Check := fun v =>
  match v with
  | Some (JString s) => if is_uuid s then None else Some invalid_string
  | _ => Some invalid_type
  end.

Definition schemas_createAccount : list (string * Check) :=
  [("user_id", z_string_min1); ("currency", z_enum ["USD"; "INR"])].

Definition schemas_recordTransaction : list (string * Check) :=
  [("account_id", z_string_uuid);
   ("type", z_enum ["DEPOSIT"; "WITHDRAWAL"]);
   ("amount", z_number_positive);
   ("description", z_string_optional)].

Definition schemas_transfer : list (string * Check) :=
  [("from_account_id", z_string_uuid);
   ("to_account_id", z_string_uuid);
   ("amount", z_number_positive);
   ("description", z_string_optional)].

End Schemas.

(** [z.object(shape).parse(body)]: the issues found; keys outside the
    shape are let through. *)
Definition issues (shape : list (string * Check)) (body : Body)
  : list Issue :=
  match body with
  | JObject fields =>
      omap (fun entry =>
              match snd entry (field (fst entry) fields) with
              | Some code =>
                  Some {| issue_path := fst entry; issue_code := code |}
              | None => None
              end) shape
  | _ => [{| issue_path := ""; issue_code := invalid_type |}]
  end.

(** [validateRequest(schema)]: [None] for [next()], else the details of
    the 400 answer. *)
Definition validateRequest (shape : list (string * Check)) (body : Body)
  : option (list Issue) :=
  match issues shape body with
  | [] => None
  | details => Some details
  end.

(** The request that a service reads off a body. *)
Definition currency_of (v : option Json) : option Currency :=
  match v with
  | Some (JString s) =>
      if String.eqb s "USD" then Some USD
      else if String.eqb s "INR" then Some INR else None
  | _ => None
  end.

Definition type_of (v : option Json) : option TransactionType :=
  match v with
  | Some (JString s) =>
      if String.eqb s "DEPOSIT" then Some DEPOSIT
      else if String.eqb s "WITHDRAWAL" then Some WITHDRAWAL
      else if String.eqb s "TRANSFER_DEBIT" then Some TRANSFER_DEBIT
      else if String.eqb s "TRANSFER_CREDIT" then Some TRANSFER_CREDIT
      else None
  | _ => None
  end.

Definition text_of (v : option Json) : option string :=
  match v with
  | Some (JString s) => Some s
  | _ => None
  end.

Definition number_of (v : option Json) : option Z :=
  match v with
  | Some (JNumber n) => Some n
  | _ => None
  end.

Definition as_CreateAccountRequest (body : Body)
  : option CreateAccountRequest :=
  match body with
  | JObject fields =>
      match text_of (field "user_id" fields),
            currency_of (field "currency" fields) with
      | Some user_id, Some currency =>
          Some {| ca_user_id := user_id; ca_currency := currency |}
      | _, _ => None
      end
  | _ => None
  end.

Definition as_RecordTransactionRequest (body : Body)
  : option RecordTransactionRequest :=
  match body with
  | JObject fields =>
      match text_of (field "account_id" fields),
            type_of (field "type" fields),
            number_of (field "amount" fields) with
      | Some account_id, Some type, Some amount =>
          Some {| rt_account_id := account_id; rt_type := type;
                  rt_amount := amount;
                  rt_description := text_of (field "description" fields) |}
      | _, _, _ => None
      end
  | _ => None
  end.

Definition as_TransferRequest (body : Body) : option TransferRequest :=
  match body with
  | JObject fields =>
      match text_of (field "from_account_id" fields),
            text_of (field "to_account_id" fields),
            number_of (field "amount" fields) with
      | Some from, Some to, Some amount =>
          Some {| tr_from_account_id := from; tr_to_account_id := to;
                  tr_amount := amount;
                  tr_description := text_of (field "description" fields) |}
      | _, _, _ => None
      end
  | _ => None
  end.

(** *** The idempotency middleware, on the way out

    When the middleware let a request through under a key, [res.json] is
    wrapped: the answer is stored under the hash computed on the way in. *)
Definition capture (date now : Z) (handled : Handled) (req : Request)
    (status : Z) (body : string) (db : Db) : Db :=
  match handled with
  | Next (Some keyHash) =>
      storeIdempotencyRecord date now keyHash (req_method req) (req_path req)
        status body db
  | _ => db
  end.

(** *** What the tables satisfy *)

(** The constraints of [init.sql] on the ledger's tables. *)
Record consistent (db : Db) : Prop := {
  ids_unique : NoDup (transaction_ids db);
  rows_owned : forall t, t ∈ transactions db ->
    is_Some (accounts db !! tx_account_id t);
  rows_checked : forall t, t ∈ transactions db ->
    0 < tx_amount t /\ 0 <= tx_balance_after t;
  related_known : forall t r, t ∈ transactions db ->
    tx_related_transaction_id t = Some r -> r ∈ transaction_ids db;
  balances_checked : nonneg_balances db;
  owners_unique : forall id1 id2 r1 r2,
    accounts db !! id1 = Some r1 -> accounts db !! id2 = Some r2 ->
    row_user_id r1 = row_user_id r2 -> row_currency r1 = row_currency r2 ->
    id1 = id2
}.

(** What a row adds to its account. *)
Definition signed (t : Transaction) : Z :=
  match tx_type t with
  | DEPOSIT | TRANSFER_CREDIT => tx_amount t
  | WITHDRAWAL | TRANSFER_DEBIT => - tx_amount t
  end.

(** The net of the rows of an account. *)
Definition net (account_id : string) (db : Db) : Z :=
  foldr (fun t acc => signed t + acc) 0
    (filter (of_account account_id) (transactions db)).

(** Every balance is the net of the account's rows, and the last row of
    an account shows its balance. *)
Definition reconciled (db : Db) : Prop :=
  forall id r, accounts db !! id = Some r ->
    row_balance r = net id db /\
    forall t, last (filter (of_account id) (transactions db)) = Some t ->
      tx_balance_after t = row_balance r.

(** The version of every account counts its rows. *)
Definition versions_counted (db : Db) : Prop :=
  forall id r, accounts db !! id = Some r ->
    row_version r = count_transactions id db.

(** The rows on a page of the history, none when the call fails. *)
Definition history_data (account_id : string) (page limit : Z) (db : Db)
  : list Transaction :=
  match getTransactionHistory
          (history_query account_id (Some (Num page)) (Some (Num limit))) db
  with
  | Ok resp => pr_data resp
  | Err _ => []
  end.

Definition is_lower_hex (c : ascii) : bool :=
  let n := Z.of_N (N_of_ascii c) in
  ((48 <=? n) && (n <=? 57)) || ((97 <=? n) && (n <=? 102)).

(** *** Histories of the database *)

(** A call that may change the tables, with what it draws from outside
    (identifiers, clock readings). *)
Inductive Operation :=
| CreateAccount (id : string) (now : Z) (request : CreateAccountRequest)
| RecordTransaction (now : Z) (transactionId : string)
    (request : RecordTransactionRequest)
| Transfer (now : Z) (debitId creditId : string) (request : TransferRequest)
| StoreIdempotencyRecord (call : StoreCall).

(** The tables after the call, whether it returned or threw. *)
Definition perform (op : Operation) (db : Db) : Db :=
  match op with
  | CreateAccount id now request => snd (createAccount id now request db)
  | RecordTransaction now transactionId request =>
      snd (recordTransaction now transactionId request db)
  | Transfer now debitId creditId request =>
      snd (transfer now debitId creditId request db)
  | StoreIdempotencyRecord call => run_store call db
  end.

Definition perform_all (ops : list Operation) (db : Db) : Db :=
  fold_left (fun d op => perform op d) ops db.

(** The tables as [init.sql] leaves them. *)
Definition empty_db : Db :=
  {| accounts := ∅; transactions := []; idempotency_keys := ∅ |}.

(** A [recordTransaction] whose type is one of the two its request type
    allows. *)
Definition simple (op : Operation) : Prop :=
  match op with
  | RecordTransaction _ _ request =>
      rt_type request = DEPOSIT \/ rt_type request = WITHDRAWAL
  | _ => True
  end.

(** *** Requests one at a time *)

(** The requests [order] of [jobs], each run to its end before the next
    starts: the tables at the end, and the outcome of each. *)
Fixpoint serial (jobs : list Concurrent.Job) (order : list nat) (db : Db)
  : Db * list (nat * Result Transaction) :=
  match order with
  | [] => (db, [])
  | i :: rest =>
      match jobs !! i with
      | Some job =>
          let done :=
            recordTransaction (Concurrent.job_now job)
              (Concurrent.job_transactionId job) (Concurrent.job_request job)
              db in
          let later := serial jobs rest (snd done) in
          (fst later, (i, fst done) :: snd later)
      | None => serial jobs rest db
      end
  end.

(** What a world reached by requests in flight has to do with the serial
    run of the requests that have ended, in the order [order] in which
    they ended. *)
Record Serializes (jobs : list Concurrent.Job) (db : Db)
    (w : Concurrent.World) (order : list nat) : Prop := {
  ser_length : length (Concurrent.phases w) = length jobs;
  ser_order : NoDup order;
  ser_ended : forall i, i ∈ order ->
    exists outcome,
      Concurrent.phases w !! i = Some (Concurrent.Finished outcome);
  ser_committed : Concurrent.committed w = fst (serial jobs order db);
  ser_outcomes : forall i outcome,
    Concurrent.phases w !! i = Some (Concurrent.Finished outcome) <->
    (i, outcome) ∈ snd (serial jobs order db);
  ser_holding : forall i job account locks,
    jobs !! i = Some job ->
    Concurrent.phases w !! i = Some (Concurrent.Holding account locks) ->
    let id := rt_account_id (Concurrent.job_request job) in
    match accounts (Concurrent.committed w) !! id with
    | Some r => account = Some (account_of_row id r) /\ locks = [id]
    | None => account = None /\ locks = []
    end;
  ser_exclusive : forall i j p q id,
    Concurrent.phases w !! i = Some p -> Concurrent.phases w !! j = Some q ->
    id ∈ Concurrent.held p -> id ∈ Concurrent.held q -> i = j
}.

(** *** What [recordTransaction] writes *)

(** The row that a posting inserts. *)
Definition posted_row (now : Z) (transactionId : string)
    (request : RecordTransactionRequest) (newBalance : Z) : Transaction :=
  {| tx_id := transactionId; tx_account_id := rt_account_id request;
     tx_type := rt_type request; tx_amount := rt_amount request;
     tx_balance_after := newBalance; tx_related_transaction_id := None;
     tx_description := or_null (rt_description request);
     tx_created_at := now |}.

(** The tables after a posting on the account row [r]. *)
Definition posted_db (now : Z) (request : RecordTransactionRequest)
    (r : AccountRow) (newBalance : Z) (t : Transaction) (db : Db) : Db :=
  {| accounts := <[rt_account_id request := updated_row r newBalance now]>
                   (accounts db);
     transactions := transactions db ++ [t];
     idempotency_keys := idempotency_keys db |}.

(** The balance that the request asks for, before any check. *)
Definition balance_wanted (request : RecordTransactionRequest)
    (r : AccountRow) : Z :=
  if decide (rt_type request = DEPOSIT)
  then row_balance r + rt_amount request
  else row_balance r - rt_amount request.

(** *** More sample data *)

Definition sample_owner : CreateAccountRequest :=
  {| ca_user_id := "dave"; ca_currency := USD |}.

Definition sample_history : list Operation :=
  [CreateAccount "a" 1 {| ca_user_id := "alice"; ca_currency := USD |};
   RecordTransaction 2 "t1"
     {| rt_account_id := "a"; rt_type := DEPOSIT; rt_amount := 50000;
        rt_description := None |};
   RecordTransaction 3 "t2"
     {| rt_account_id := "a"; rt_type := WITHDRAWAL; rt_amount := 20000;
        rt_description := None |}].

(** The body of a deposit of 25.00 on the account [a]. *)
Definition sample_body : Body :=
  JObject [("account_id", JString "a"); ("type", JString "DEPOSIT");
           ("amount", JNumber 2500)].

(** A deposit on [a] and a withdrawal from [c], in flight at once. *)
Definition sample_jobs : list Concurrent.Job :=
  [{| Concurrent.job_now := 8; Concurrent.job_transactionId := "t1";
      Concurrent.job_request := sample_deposit |};
   Concurrent.withdrawal "c" 2000 ("t2", 9)].

(** Where the two are once the first has the lock, the second has run
    to its end, and the first has ended too. *)
Definition sample_world : Concurrent.World :=
  default (Concurrent.start sample_jobs sample_db)
    (Concurrent.run sample_jobs [0; 1; 1; 0]%nat
       (Concurrent.start sample_jobs sample_db)).

(** The row of [sample_deposit], posted on [sample_ledger] at time 10
    under the identifier [t9]. *)
Definition sample_posted : Transaction :=
  posted_row 10 "t9" sample_deposit 150000.

(** * Properties *)

(** ** Basic facts *)

Lemma mapAccount_id (row : Account) : mapAccount row = row.
Proof. by destruct row. Qed.

Lemma mapTransaction_id (row : Transaction) : mapTransaction row = row.
Proof. by destruct row. Qed.

Lemma map_mapTransaction (rows : list Transaction) :
  map mapTransaction rows = rows.
Proof.
  induction rows as [|row rows IH]; simpl; [done|].
  by rewrite mapTransaction_id, IH.
Qed.

Lemma select_account_Some (id : string) (db : Db) (r : AccountRow) :
  accounts db !! id = Some r -> select_account id db = [account_of_row id r].
Proof. intros H. unfold select_account. by rewrite H. Qed.

Lemma select_account_None (id : string) (db : Db) :
  accounts db !! id = None -> select_account id db = [].
Proof. intros H. unfold select_account. by rewrite H. Qed.

Lemma getAccountWithLock_Some (id : string) (s : Session) (r : AccountRow) :
  accounts (tables s) !! id = Some r ->
  getAccountWithLock id s = (Ok (Some (account_of_row id r)), with_lock s id).
Proof.
  intros H. unfold getAccountWithLock, bind, select_account_for_update.
  rewrite (select_account_Some _ _ _ H). simpl. by rewrite mapAccount_id.
Qed.

Lemma getAccountWithLock_None (id : string) (s : Session) :
  accounts (tables s) !! id = None ->
  getAccountWithLock id s = (Ok None, s).
Proof.
  intros H. unfold getAccountWithLock, bind, select_account_for_update.
  by rewrite (select_account_None _ _ H).
Qed.

(** The three ways [updateAccountBalance] can go. *)
Lemma updateAccountBalance_ok (s : Session) (id : string) (r : AccountRow)
    (newBalance : Z) :
  accounts (tables s) !! id = Some r -> 0 <= newBalance ->
  updateAccountBalance id newBalance (row_version r) s =
    (Ok tt,
     with_tables s
       (set_accounts (tables s)
          (<[id := updated_row r newBalance (current_timestamp s)]>
             (accounts (tables s))))).
Proof.
  intros H Hnn. unfold updateAccountBalance, bind, update_account_balance.
  rewrite H, Z.eqb_refl.
  destruct (Z.ltb_spec newBalance 0) as [Hneg|_]; [lia|done].
Qed.

Lemma updateAccountBalance_check (s : Session) (id : string) (r : AccountRow)
    (newBalance : Z) :
  accounts (tables s) !! id = Some r -> newBalance < 0 ->
  updateAccountBalance id newBalance (row_version r) s =
    (Err (InternalFailure (ConstraintViolation accounts_balance_check)), s).
Proof.
  intros H Hneg. unfold updateAccountBalance, bind, update_account_balance.
  rewrite H, Z.eqb_refl.
  destruct (Z.ltb_spec newBalance 0) as [_|Hnn]; [done|lia].
Qed.

Lemma updateAccountBalance_conflict (s : Session) (id : string)
    (newBalance version : Z) :
  (forall r, accounts (tables s) !! id = Some r -> row_version r <> version) ->
  updateAccountBalance id newBalance version s = (Err VersionConflict, s).
Proof.
  intros H. unfold updateAccountBalance, bind, update_account_balance.
  destruct (accounts (tables s) !! id) as [r|] eqn:E; [|done].
  destruct (Z.eqb_spec (row_version r) version) as [Hv|_]; [|done].
  by destruct (H r eq_refl).
Qed.

(** ** AccountStore: the version-checked update *)




(** ** LedgerEngine: deposits and withdrawals *)

Lemma insert_transaction_ok (s : Session) (t : Transaction) :
  0 < tx_amount t -> 0 <= tx_balance_after t ->
  tx_id t ∉ transaction_ids (tables s) ->
  is_Some (accounts (tables s) !! tx_account_id t) ->
  tx_related_transaction_id t = None ->
  insert_transaction t s =
    (Ok [t],
     with_tables s
       (set_transactions (tables s) (transactions (tables s) ++ [t]))).
Proof.
  intros Ha Hb Hid Hacc Hrel. unfold insert_transaction.
  destruct (Z.ltb_spec 0 (tx_amount t)); [simpl|lia].
  destruct (Z.ltb_spec (tx_balance_after t) 0); [lia|].
  rewrite bool_decide_eq_false_2 by done.
  rewrite bool_decide_eq_true_2 by done. simpl.
  by rewrite Hrel.
Qed.

Lemma new_balance_deposit (request : RecordTransactionRequest)
    (account : Account) (s : Session) :
  rt_type request = DEPOSIT ->
  new_balance request account s
    = (Ok (acct_balance account + rt_amount request), s).
Proof. intros H. unfold new_balance. by rewrite H. Qed.

Lemma new_balance_withdrawal (request : RecordTransactionRequest)
    (account : Account) (s : Session) :
  rt_type request <> DEPOSIT ->
  rt_amount request <= acct_balance account ->
  new_balance request account s
    = (Ok (acct_balance account - rt_amount request), s).
Proof.
  intros H Hle. unfold new_balance. simpl.
  destruct (Z.ltb_spec (acct_balance account - rt_amount request) 0); [lia|].
  by destruct (rt_type request).
Qed.

Lemma new_balance_insufficient (request : RecordTransactionRequest)
    (account : Account) (s : Session) :
  rt_type request <> DEPOSIT ->
  acct_balance account < rt_amount request ->
  new_balance request account s = (Err InsufficientFunds, s).
Proof.
  intros H Hlt. unfold new_balance. simpl.
  destruct (Z.ltb_spec (acct_balance account - rt_amount request) 0); [|lia].
  by destruct (rt_type request).
Qed.

(** A posting that goes through: the balance becomes [newBalance], the
    version moves by one, one row is appended. *)
Lemma recordTransaction_locked_posts (s : Session)
    (transactionId : string) (request : RecordTransactionRequest)
    (r : AccountRow) (newBalance : Z) :
  let id := rt_account_id request in
  let t := {| tx_id := transactionId; tx_account_id := id;
              tx_type := rt_type request; tx_amount := rt_amount request;
              tx_balance_after := newBalance;
              tx_related_transaction_id := None;
              tx_description := or_null (rt_description request);
              tx_created_at := current_timestamp s |} in
  accounts (tables s) !! id = Some r ->
  0 < rt_amount request -> 0 <= newBalance ->
  transactionId ∉ transaction_ids (tables s) ->
  new_balance request (account_of_row id r) s = (Ok newBalance, s) ->
  recordTransaction_locked transactionId request
      (Some (account_of_row id r)) s =
    (Ok t,
     with_tables s
       {| accounts := <[id := updated_row r newBalance (current_timestamp s)]>
                        (accounts (tables s));
          transactions := transactions (tables s) ++ [t];
          idempotency_keys := idempotency_keys (tables s) |}).
Proof.
  intros id t Hr Ha Hnn Hfresh Hnew.
  unfold recordTransaction_locked.
  unfold bind at 1. rewrite Hnew.
  unfold bind at 1. simpl acct_id. simpl acct_version.
  rewrite (updateAccountBalance_ok s id r newBalance Hr Hnn).
  unfold bind at 1.
  rewrite insert_transaction_ok; simpl; try done.
  by rewrite lookup_insert_eq.
Qed.



(** ** Units of work *)

Lemma bind_Ok_inv {A B} (m : Tx A) (k : A -> Tx B) (s s' : Session) (b : B) :
  bind m k s = (Ok b, s') ->
  exists a s1, m s = (Ok a, s1) /\ k a s1 = (Ok b, s').
Proof.
  unfold bind. destruct (m s) as [[a|e] s1]; [|discriminate].
  intros H. by exists a, s1.
Qed.

Lemma bind_Ok {A B} (m : Tx A) (k : A -> Tx B) (s s' : Session) (a : A) :
  m s = (Ok a, s') -> bind m k s = k a s'.
Proof. intros H. unfold bind. by rewrite H. Qed.

Lemma bind_Err {A B} (m : Tx A) (k : A -> Tx B) (s s' : Session)
    (e : LedgerError) :
  m s = (Err e, s') -> bind m k s = (Err e, s').
Proof. intros H. unfold bind. by rewrite H. Qed.

Lemma transaction_rolls_back {A} (now : Z) (callback : Tx A) (db db' : Db)
    (e : LedgerError) :
  transaction now callback db = (Err e, db') -> db' = db.
Proof.
  unfold transaction. destruct (callback (begin now db)) as [[a|e'] s].
  - discriminate.
  - intros H. by injection H as _ <-.
Qed.

Lemma transaction_commits {A} (now : Z) (callback : Tx A) (db db' : Db)
    (a : A) :
  transaction now callback db = (Ok a, db') ->
  exists s, callback (begin now db) = (Ok a, s) /\ db' = tables s.
Proof.
  unfold transaction. destruct (callback (begin now db)) as [[a'|e] s].
  - intros H. injection H as <- <-. by exists s.
  - discriminate.
Qed.

(** ** LedgerEngine: transfers *)

Lemma select_account_for_update_Some (id : string) (s : Session)
    (r : AccountRow) :
  accounts (tables s) !! id = Some r ->
  select_account_for_update id s = (Ok [account_of_row id r], with_lock s id).
Proof.
  intros H. unfold select_account_for_update.
  by rewrite (select_account_Some _ _ _ H).
Qed.

Lemma select_account_for_update_None (id : string) (s : Session) :
  accounts (tables s) !! id = None ->
  select_account_for_update id s = (Ok [], s).
Proof.
  intros H. unfold select_account_for_update.
  by rewrite (select_account_None _ _ H).
Qed.

(** Statements after the two SELECTs take no lock. *)
Lemma updateAccountBalance_locks (id : string) (newBalance version : Z)
    (s : Session) :
  row_locks (snd (updateAccountBalance id newBalance version s)) = row_locks s.
Proof.
  unfold updateAccountBalance, bind, update_account_balance.
  repeat case_match; simplify_eq; done.
Qed.

Lemma insert_transaction_locks (t : Transaction) (s : Session) :
  row_locks (snd (insert_transaction t s)) = row_locks s.
Proof.
  unfold insert_transaction, fault, throw.
  repeat case_match; simplify_eq; done.
Qed.

Lemma bind_locks {A B} (m : Tx A) (k : A -> Tx B) (s : Session)
    (held : list string) :
  row_locks (snd (m s)) = held ->
  (forall a s1, row_locks s1 = held -> row_locks (snd (k a s1)) = held) ->
  row_locks (snd (bind m k s)) = held.
Proof.
  intros Hm Hk. unfold bind. destruct (m s) as [[a|e] s1]; simpl in *.
  - by apply Hk.
  - done.
Qed.

(** The body of [transfer] asks for the lock on the source, then for the
    lock on the destination, whatever their identifiers. *)
Lemma transfer_callback_locks (debitId creditId : string)
    (request : TransferRequest) (s : Session) (rf rt : AccountRow) :
  accounts (tables s) !! tr_from_account_id request = Some rf ->
  accounts (tables s) !! tr_to_account_id request = Some rt ->
  row_locks (snd (transfer_callback debitId creditId request s)) =
    (row_locks s ++
       [tr_from_account_id request; tr_to_account_id request])%list.
Proof.
  intros Hf Ht. unfold transfer_callback.
  unfold bind at 1. rewrite (select_account_for_update_Some _ _ _ Hf).
  unfold bind at 1.
  rewrite (select_account_for_update_Some _ (with_lock s _) rt) by exact Ht.
  set (s2 := with_lock (with_lock s _) _).
  assert (Hs2 : row_locks s2 = (row_locks s ++
            [tr_from_account_id request; tr_to_account_id request])%list)
    by (simpl; by rewrite <- app_assoc).
  revert Hs2. generalize s2. clear s2. intros s2 Hs2.
  case_match; [done|]. case_match; [done|].
  apply bind_locks; [by rewrite updateAccountBalance_locks|].
  intros _ s3 Hs3.
  apply bind_locks; [by rewrite updateAccountBalance_locks|].
  intros _ s4 Hs4.
  apply bind_locks; [by rewrite insert_transaction_locks|].
  intros _ s5 Hs5.
  apply bind_locks; [by rewrite insert_transaction_locks|].
  intros _ s6 Hs6.
  apply bind_locks; [done|]. intros d s7 Hs7.
  apply bind_locks; [done|]. intros c s8 Hs8.
  unfold fault, throw, ret. by repeat case_match.
Qed.

(** C1 at accounts [a] and [b]: the transfer from [b] to [a] asks for the
    lock on [b] first and the transfer from [a] to [b] for the lock on [a]
    first, although the sorted pair that the body computes is [a], [b] in
    both directions: the order of the locks follows the direction of the
    transfer. *)
Theorem transfer_locks_follow_direction :
  locks_requested 7 (transfer_callback "d" "c" (sample_transfer "b" "a"))
    sample_db = ["b"; "a"] /\
  locks_requested 7 (transfer_callback "d" "c" (sample_transfer "a" "b"))
    sample_db = ["a"; "b"] /\
  sort_pair "b" "a" = ["a"; "b"] /\
  sort_pair "a" "b" = ["a"; "b"].
Proof. repeat split; by vm_compute. Qed.

(** The same for every pair of existing accounts. *)
Lemma transfer_locks_in_request_order (now : Z) (debitId creditId : string)
    (request : TransferRequest) (db : Db) (rf rt : AccountRow) :
  accounts db !! tr_from_account_id request = Some rf ->
  accounts db !! tr_to_account_id request = Some rt ->
  locks_requested now (transfer_callback debitId creditId request) db =
    [tr_from_account_id request; tr_to_account_id request].
Proof.
  intros Hf Ht. unfold locks_requested.
  by rewrite (transfer_callback_locks _ _ _ (begin now db) rf rt).
Qed.

(** With both transfers in flight, each can be granted its first lock and
    then wait for the other's for ever. *)
Lemma opposite_transfers_can_deadlock :
  exists clients,
    Locking.run sample_db [0; 1]%nat
      (Locking.start [sample_transfer "a" "b"; sample_transfer "b" "a"])
      = Some clients /\
    map (Locking.holds sample_db) clients = [["a"]; ["b"]] /\
    Locking.deadlocked sample_db clients = true.
Proof. eexists. split; [by vm_compute|]. split; by vm_compute. Qed.

Lemma insert_transaction_Ok_inv (t : Transaction) (s s' : Session)
    (rows : list Transaction) :
  insert_transaction t s = (Ok rows, s') ->
  (tx_id t ∉ transaction_ids (tables s)) /\
  transaction_ids (tables s') = (transaction_ids (tables s) ++ [tx_id t])%list /\
  (forall r, tx_related_transaction_id t = Some r ->
     r ∈ transaction_ids (tables s')).
Proof.
  unfold insert_transaction, fault, throw.
  repeat case_match; intros Hins; simplify_eq; simpl.
  - split; [by eapply bool_decide_eq_false_1|].
    split; [unfold transaction_ids; simpl; by rewrite map_app|].
    intros r' Hr'. injection Hr' as <-. by eapply bool_decide_eq_true_1.
  - split; [by eapply bool_decide_eq_false_1|].
    split; [unfold transaction_ids; simpl; by rewrite map_app|].
    intros r' Hr'. discriminate.
Qed.

(** A row that names a row which is not in the table, and is not itself,
    is refused. *)
Lemma insert_transaction_dangling (s : Session) (t : Transaction)
    (r : string) :
  0 < tx_amount t -> 0 <= tx_balance_after t ->
  tx_id t ∉ transaction_ids (tables s) ->
  is_Some (accounts (tables s) !! tx_account_id t) ->
  tx_related_transaction_id t = Some r ->
  r ∉ transaction_ids (tables s) -> r <> tx_id t ->
  insert_transaction t s =
    (Err (InternalFailure
            (ConstraintViolation transactions_related_transaction_id_fkey)),
     s).
Proof.
  intros Ha Hb Hid Hacc Hrel Hr Hself. unfold insert_transaction.
  destruct (Z.ltb_spec 0 (tx_amount t)); [simpl|lia].
  destruct (Z.ltb_spec (tx_balance_after t) 0); [lia|].
  rewrite bool_decide_eq_false_2 by done.
  rewrite bool_decide_eq_true_2 by done. simpl. rewrite Hrel.
  rewrite bool_decide_eq_false_2; [done|].
  unfold transaction_ids. simpl. rewrite map_app. simpl.
  intros Hin. apply elem_of_app in Hin as [Hin|Hin]; [done|].
  by apply list_elem_of_singleton in Hin.
Qed.

(** No transfer commits: the debit row names the credit row before that
    row exists, which [related_transaction_id UUID REFERENCES
    transactions(id)] refuses; and were the credit identifier already in
    the table, the credit row would break the primary key. *)
Lemma transfer_never_commits (now : Z) (debitId creditId : string)
    (request : TransferRequest) (db db' : Db)
    (pair : Transaction * Transaction) :
  transfer now debitId creditId request db <> (Ok pair, db').
Proof.
  unfold transfer. destruct (String.eqb _ _); [discriminate|].
  intros H. apply transaction_commits in H as (s & H & _).
  unfold transfer_callback in H.
  apply bind_Ok_inv in H as (fromAccount & s1 & _ & H).
  apply bind_Ok_inv in H as (toAccount & s2 & _ & H).
  destruct fromAccount as [|fromRow ?]; [discriminate|].
  destruct toAccount as [|toRow ?]; [discriminate|].
  destruct (negb _); [discriminate|]. destruct (_ <? _); [discriminate|].
  apply bind_Ok_inv in H as (? & s3 & _ & H).
  apply bind_Ok_inv in H as (? & s4 & _ & H).
  apply bind_Ok_inv in H as (? & s5 & Hdebit & H).
  apply bind_Ok_inv in H as (? & s6 & Hcredit & _).
  apply insert_transaction_Ok_inv in Hdebit as (_ & _ & Hfk).
  apply insert_transaction_Ok_inv in Hcredit as (Hpk & _).
  apply Hpk. by apply Hfk.
Qed.

(** Where it stops: a transfer that passes every check of the service
    (distinct existing accounts of one currency, a positive amount within
    the source's balance, unused identifiers) has debited the source and
    credited the destination by the amount when the INSERT of the debit row
    is refused; the rollback leaves the database as it was. *)
Lemma transfer_refused_after_updates (now : Z) (debitId creditId : string)
    (request : TransferRequest) (db : Db) (rf rt : AccountRow) :
  let from := tr_from_account_id request in
  let to := tr_to_account_id request in
  from <> to ->
  accounts db !! from = Some rf ->
  accounts db !! to = Some rt ->
  row_currency rf = row_currency rt ->
  0 < tr_amount request <= row_balance rf ->
  0 <= row_balance rt ->
  debitId ∉ transaction_ids db ->
  creditId ∉ transaction_ids db ->
  debitId <> creditId ->
  let refusal :=
    Err (InternalFailure
           (ConstraintViolation transactions_related_transaction_id_fkey)) in
  transfer now debitId creditId request db = (refusal, db) /\
  exists s,
    transfer_callback debitId creditId request (begin now db) = (refusal, s) /\
    accounts (tables s) =
      <[to := updated_row rt (row_balance rt + tr_amount request) now]>
        (<[from := updated_row rf (row_balance rf - tr_amount request) now]>
           (accounts db)) /\
    transactions (tables s) = transactions db.
Proof.
  intros from to Hne Hf Ht Hcur Ha Hb Hd Hc Hdc refusal.
  assert (E : exists s,
    transfer_callback debitId creditId request (begin now db) = (refusal, s) /\
    accounts (tables s) =
      <[to := updated_row rt (row_balance rt + tr_amount request) now]>
        (<[from := updated_row rf (row_balance rf - tr_amount request) now]>
           (accounts db)) /\
    transactions (tables s) = transactions db).
  { unfold transfer_callback. cbn zeta. fold from. fold to.
    erewrite bind_Ok by (by apply select_account_for_update_Some).
    erewrite bind_Ok by (by apply select_account_for_update_Some).
    rewrite !mapAccount_id.
    cbn [acct_currency acct_balance acct_id acct_version acct_user_id
         account_of_row].
    rewrite bool_decide_eq_true_2 by exact Hcur. cbn [negb].
    destruct (Z.ltb_spec (row_balance rf - tr_amount request) 0); [lia|].
    erewrite bind_Ok by (apply updateAccountBalance_ok; [done|lia]).
    erewrite bind_Ok
      by (apply updateAccountBalance_ok;
          [simpl; by rewrite lookup_insert_ne|lia]).
    erewrite bind_Err.
    2:{ apply insert_transaction_dangling with (r := creditId); simpl;
          try done; try lia.
        rewrite lookup_insert_ne by done. by rewrite lookup_insert_eq. }
    eexists. split; [reflexivity|]. by split. }
  split; [|exact E].
  destruct E as (s & E & _). unfold transfer.
  destruct (String.eqb_spec (tr_from_account_id request)
              (tr_to_account_id request)) as [Heq|_]; [by destruct Hne|].
  unfold transaction. by rewrite E.
Qed.

(** C2 at a transfer of 300.00 from [a] (1000.00) to [b], both USD: the
    transfer does not succeed and creates no row; the INSERT of the debit
    row is refused by the foreign key on [related_transaction_id], and the
    unit of work is rolled back. *)
Theorem transfer_refused_by_foreign_key :
  transfer 7 "d" "c" (sample_transfer "a" "b") sample_db =
    (Err (InternalFailure
            (ConstraintViolation transactions_related_transaction_id_fkey)),
     sample_db).
Proof. by vm_compute. Qed.

(** What the body of that transfer had written when it was refused: both
    balances, which conserve the sum; the rollback drops them. *)
Lemma transfer_writes_before_refusal :
  let s := snd (transfer_callback "d" "c" (sample_transfer "a" "b")
                  (begin 7 sample_db)) in
  Concurrent.balance_of "a" (tables s) = 70000 /\
  Concurrent.balance_of "b" (tables s) = 30000 /\
  transactions (tables s) = [] /\
  tables s <> sample_db.
Proof.
  repeat split; by vm_compute.
Qed.

(** C4: a [recordTransaction] or a [transfer] that fails leaves the
    database as it was before the call, whatever its callback had written;
    and a transfer between two existing accounts of different currencies
    fails with [CurrencyMismatch], balances and transaction log
    untouched. *)
Theorem failed_operation_changes_nothing :
  (forall now transactionId request db e db',
     recordTransaction now transactionId request db = (Err e, db') ->
     db' = db) /\
  (forall now debitId creditId request db e db',
     transfer now debitId creditId request db = (Err e, db') -> db' = db) /\
  (forall now debitId creditId request db rf rt,
     tr_from_account_id request <> tr_to_account_id request ->
     accounts db !! tr_from_account_id request = Some rf ->
     accounts db !! tr_to_account_id request = Some rt ->
     row_currency rf <> row_currency rt ->
     transfer now debitId creditId request db = (Err CurrencyMismatch, db)).
Proof.
  split; [|split].
  - intros now transactionId request db e db' H.
    by eapply transaction_rolls_back.
  - intros now debitId creditId request db e db'. unfold transfer.
    destruct (String.eqb _ _).
    + intros H. by injection H as _ <-.
    + intros H. by eapply transaction_rolls_back.
  - intros now debitId creditId request db rf rt Hne Hf Ht Hcur.
    unfold transfer.
    rewrite (proj2 (String.eqb_neq _ _) Hne).
    unfold transaction, transfer_callback.
    unfold bind at 1.
    rewrite (select_account_for_update_Some _ (begin now db) rf) by exact Hf.
    unfold bind at 1.
    rewrite (select_account_for_update_Some _ (with_lock _ _) rt) by exact Ht.
    rewrite !mapAccount_id. simpl acct_currency.
    by rewrite bool_decide_eq_false_2.
Qed.

Lemma failed_operation_changes_nothing_witness :
  transfer 7 "d" "c" (sample_transfer "a" "c") sample_db
    = (Err CurrencyMismatch, sample_db) /\
  snd (transfer 7 "d" "c" (sample_transfer "a" "b") sample_db) = sample_db /\
  snd (recordTransaction 7 "t"
         {| rt_account_id := "b"; rt_type := WITHDRAWAL; rt_amount := 1;
            rt_description := None |} sample_db) = sample_db.
Proof.
  destruct failed_operation_changes_nothing as (Hrec & Htr & Hcur).
  split; [|split].
  - apply (Hcur 7 "d" "c" (sample_transfer "a" "c") sample_db
             (sample_row "alice" USD 100000 1) (sample_row "carol" INR 5000 3)).
    + simpl. discriminate.
    + by vm_compute.
    + by vm_compute.
    + simpl. discriminate.
  - eapply (Htr 7 "d" "c" (sample_transfer "a" "b") sample_db
              (InternalFailure (ConstraintViolation
                 transactions_related_transaction_id_fkey))).
    by vm_compute.
  - eapply (Hrec 7 "t"
              {| rt_account_id := "b"; rt_type := WITHDRAWAL; rt_amount := 1;
                 rt_description := None |} sample_db InsufficientFunds).
    by vm_compute.
Defined.

(** ** LedgerEngine: history *)

#[global] Instance newer_first_total : Total newer_first.
Proof. intros t1 t2. unfold newer_first. lia. Qed.

#[global] Instance newer_first_trans : Transitive newer_first.
Proof. intros t1 t2 t3. unfold newer_first. lia. Qed.

Lemma ceil_div_spec (a b : Z) :
  0 < b -> (ceil_div a b - 1) * b < a <= ceil_div a b * b.
Proof.
  intros Hb. unfold ceil_div.
  pose proof (Z.div_mod (- a) b) as Hdm.
  pose proof (Z.mod_pos_bound (- a) b Hb) as Hmod.
  nia.
Qed.

Lemma or_number_nonzero (z fallback : Z) :
  z <> 0 -> or_number (Some (Num z)) fallback = z.
Proof. intros H. simpl. by destruct (Z.eqb_spec z 0). Qed.

(** The rows a query for a valid page gets. *)
Lemma select_history_window (account_id : string) (limit offset : Z)
    (db : Db) :
  0 <= offset -> 0 <= limit ->
  exists sorted,
    select_history account_id limit offset db =
      Ok (take (Z.to_nat limit) (drop (Z.to_nat offset) sorted)) /\
    sorted ≡ₚ filter (of_account account_id) (transactions db) /\
    StronglySorted newer_first sorted.
Proof.
  intros Ho Hl. unfold select_history.
  destruct (Z.ltb_spec offset 0); [lia|].
  destruct (Z.ltb_spec limit 0); [lia|].
  eexists. split; [reflexivity|]. split.
  - apply merge_sort_Permutation.
  - apply StronglySorted_merge_sort; apply _.
Qed.

Lemma StronglySorted_window {A} (R : relation A) (l : list A) (n m : nat) :
  StronglySorted R l -> StronglySorted R (take n (drop m l)).
Proof.
  intros H. rewrite <- (take_drop m l) in H.
  apply StronglySorted_app_1_r in H.
  rewrite <- (take_drop n (drop m l)) in H.
  by apply StronglySorted_app_1_l in H.
Qed.

Lemma getTransactionHistory_valid (db : Db) (account_id : string)
    (page limit : Z) :
  1 <= page -> 0 < limit <= 100 ->
  exists sorted,
    getTransactionHistory
        (history_query account_id (Some (Num page)) (Some (Num limit))) db =
      Ok {| pr_data := take (Z.to_nat limit)
                         (drop (Z.to_nat ((page - 1) * limit)) sorted);
            pr_page := page;
            pr_limit := limit;
            pr_total := count_transactions account_id db;
            pr_total_pages :=
              ceil_div (count_transactions account_id db) limit |} /\
    sorted ≡ₚ filter (of_account account_id) (transactions db) /\
    StronglySorted newer_first sorted.
Proof.
  intros Hp Hl. unfold getTransactionHistory, history_query.
  cbn [hq_page hq_limit hq_account_id].
  rewrite !or_number_nonzero by lia.
  rewrite (Z.min_l limit 100) by lia.
  destruct (select_history_window account_id limit ((page - 1) * limit) db)
    as (sorted & -> & Hperm & Hsorted); [nia|lia|].
  exists sorted. by rewrite map_mapTransaction.
Qed.

Lemma getTransactionHistory_negative (db : Db) (account_id : string)
    (page limit : Z) :
  page < 0 \/ limit < 0 ->
  exists f,
    getTransactionHistory
        (history_query account_id (Some (Num page)) (Some (Num limit))) db =
      Err (InternalFailure f).
Proof.
  intros Hneg. unfold getTransactionHistory, history_query, select_history.
  cbn [hq_page hq_limit hq_account_id].
  set (p := or_number (Some (Num page)) 1).
  set (l := Z.min (or_number (Some (Num limit)) 20) 100).
  assert (Hp : page < 0 /\ p = page \/ 0 <= page /\ 1 <= p).
  { subst p. simpl. destruct (Z.eqb_spec page 0); lia. }
  assert (Hl : limit < 0 /\ l = limit \/ 0 <= limit /\ 1 <= l).
  { subst l. simpl. destruct (Z.eqb_spec limit 0); lia. }
  destruct (Z.ltb_spec ((p - 1) * l) 0); [by eexists|].
  destruct (Z.ltb_spec l 0); [by eexists|].
  exfalso. nia.
Qed.







(** ** IdempotencyStore *)

Lemma run_store_fresh (c : StoreCall) (db : Db) :
  idempotency_keys db !! sc_keyHash c = None ->
  idempotency_keys (run_store c db) !! sc_keyHash c = Some (row_of_call c).
Proof.
  intros H. unfold run_store, storeIdempotencyRecord, insert_idempotency_key.
  rewrite H. simpl. apply lookup_insert_eq.
Qed.

Lemma run_store_taken (c : StoreCall) (db : Db) :
  is_Some (idempotency_keys db !! sc_keyHash c) -> run_store c db = db.
Proof.
  intros [r H]. unfold run_store, storeIdempotencyRecord,
    insert_idempotency_key. by rewrite H.
Qed.

Lemma run_store_keeps (c : StoreCall) (db : Db) (h : string)
    (r : IdempotencyKeyRow) :
  idempotency_keys db !! h = Some r ->
  idempotency_keys (run_store c db) !! h = Some r.
Proof.
  intros H. unfold run_store, storeIdempotencyRecord, insert_idempotency_key.
  destruct (idempotency_keys db !! sc_keyHash c) eqn:E; [done|].
  simpl. rewrite lookup_insert_ne; [done|]. intros <-. congruence.
Qed.

Lemma run_store_other (c : StoreCall) (db : Db) (h : string) :
  sc_keyHash c <> h ->
  idempotency_keys (run_store c db) !! h = idempotency_keys db !! h.
Proof.
  intros H. unfold run_store, storeIdempotencyRecord, insert_idempotency_key.
  destruct (idempotency_keys db !! sc_keyHash c) eqn:E; [done|].
  simpl. by rewrite lookup_insert_ne.
Qed.

Lemma run_store_ledger (c : StoreCall) (db : Db) :
  accounts (run_store c db) = accounts db /\
  transactions (run_store c db) = transactions db.
Proof.
  unfold run_store, storeIdempotencyRecord, insert_idempotency_key.
  by destruct (idempotency_keys db !! sc_keyHash c).
Qed.

Lemma run_stores_keep (calls : list StoreCall) (db : Db) (h : string)
    (r : IdempotencyKeyRow) :
  idempotency_keys db !! h = Some r ->
  idempotency_keys (run_stores calls db) !! h = Some r.
Proof.
  revert db. induction calls as [|c calls IH]; intros db H; [done|].
  simpl. apply IH. by apply run_store_keeps.
Qed.

Lemma run_stores_others (calls : list StoreCall) (db : Db) (h : string) :
  Forall (fun c => sc_keyHash c <> h) calls ->
  idempotency_keys (run_stores calls db) !! h = idempotency_keys db !! h.
Proof.
  revert db. induction calls as [|c calls IH]; intros db H; [done|].
  inversion H as [|? ? Hc Hcalls]; subst. simpl.
  rewrite IH by done. by apply run_store_other.
Qed.

(** C7: [storeIdempotencyRecord] inserts only where no record has the
    hash: on a free hash the store puts its record; on a taken hash it
    changes nothing; a record once stored survives every later store; and
    when stores race in any order, the record kept is that of the first one
    to run for the hash. *)
Theorem storeIdempotencyRecord_first_writer_wins (db : Db) (h : string) :
  (forall date now method path status body,
     idempotency_keys db !! h = None ->
     idempotency_keys
       (storeIdempotencyRecord date now h method path status body db) !! h
     = Some {| ik_request_method := method; ik_request_path := path;
               ik_response_status := status; ik_response_body := body;
               ik_created_at := now;
               ik_expires_at := date + 24 * 3600000 |}) /\
  (forall date now method path status body,
     is_Some (idempotency_keys db !! h) ->
     storeIdempotencyRecord date now h method path status body db = db) /\
  (forall r calls,
     idempotency_keys db !! h = Some r ->
     idempotency_keys (run_stores calls db) !! h = Some r) /\
  (forall before first after,
     idempotency_keys db !! h = None ->
     Forall (fun c => sc_keyHash c <> h) before ->
     sc_keyHash first = h ->
     idempotency_keys (run_stores (before ++ first :: after) db) !! h
     = Some (row_of_call first)).
Proof.
  split; [|split; [|split]].
  - intros date now method path status body H.
    unfold storeIdempotencyRecord, insert_idempotency_key.
    rewrite H. simpl. apply lookup_insert_eq.
  - intros date now method path status body [r H].
    unfold storeIdempotencyRecord, insert_idempotency_key. by rewrite H.
  - intros r calls H. by apply run_stores_keep.
  - intros before first after Hfree Hbefore Hfirst.
    unfold run_stores. rewrite fold_left_app. simpl.
    apply run_stores_keep. subst h. apply run_store_fresh.
    fold (run_stores before db). by rewrite run_stores_others.
Qed.

Lemma storeIdempotencyRecord_first_writer_wins_witness :
  idempotency_keys
    (run_stores [sample_store "h2" "x" 201 1; sample_store "h1" "first" 201 2;
                 sample_store "h1" "second" 400 3] sample_db) !! "h1"
  = Some (row_of_call (sample_store "h1" "first" 201 2)).
Proof.
  destruct (storeIdempotencyRecord_first_writer_wins sample_db "h1")
    as (_ & _ & _ & Hfirst).
  apply (Hfirst [sample_store "h2" "x" 201 1] (sample_store "h1" "first" 201 2)
           [sample_store "h1" "second" 400 3]).
  - by vm_compute.
  - repeat constructor. simpl. discriminate.
  - reflexivity.
Defined.

(** C10: the hash is a function of method, path and key alone, and so is
    what the middleware does with a request: two requests with the same
    method, path and [Idempotency-Key] get the same hash, whatever else
    they carry, and are answered alike from the same store at the same
    time. *)
Theorem generateIdempotencyKeyHash_deterministic :
  (forall method path key method' path' key',
     method = method' -> path = path' -> key = key' ->
     generateIdempotencyKeyHash method path key
     = generateIdempotencyKeyHash method' path' key') /\
  (forall now db req req',
     req_method req = req_method req' ->
     req_path req = req_path req' ->
     req_idempotency_key req = req_idempotency_key req' ->
     idempotencyMiddleware now req db = idempotencyMiddleware now req' db).
Proof.
  split.
  - by intros method path key ? ? ? <- <- <-.
  - intros now db req req' Hm Hp Hk. unfold idempotencyMiddleware.
    by rewrite Hm, Hp, Hk.
Qed.

Lemma generateIdempotencyKeyHash_deterministic_witness :
  idempotencyMiddleware 5 (sample_request "{amount: 200}") sample_db
  = idempotencyMiddleware 5 (sample_request "{amount: 900}") sample_db.
Proof.
  destruct generateIdempotencyKeyHash_deterministic as (_ & Hsame).
  apply Hsame; reflexivity.
Defined.

(** The hash is the SHA-256 of [method:path:key]. *)
Lemma generateIdempotencyKeyHash_sample :
  SHA256.sha256_hex "abc"
    = "ba7816bf8f01cfea414140de5dae2223b00361a396177a9cb410ff61f20015ad" /\
  generateIdempotencyKeyHash "POST" "/api/transactions" "test-key-123"
    = "15f587b8fef6d633e8734ce928a7c3e94fc7f734bae2a096b3c3277bc43ca22f".
Proof. split; by vm_compute. Qed.

(** ** No balance below zero, at any statement *)

Lemma preserves_bind {A B} (P : Db -> Prop) (m : Tx A) (k : A -> Tx B) :
  preserves P m -> (forall a, preserves P (k a)) -> preserves P (bind m k).
Proof.
  intros Hm Hk s Hs. unfold bind. specialize (Hm s Hs).
  destruct (m s) as [[a|e] s1]; simpl in *; [by apply Hk|done].
Qed.

Lemma updateAccountBalance_nonneg (id : string) (newBalance version : Z) :
  preserves nonneg_balances (updateAccountBalance id newBalance version).
Proof.
  intros s Hs. unfold updateAccountBalance, bind, update_account_balance.
  destruct (accounts (tables s) !! id) as [r|] eqn:Hr; [|done].
  destruct (row_version r =? version); [|done].
  destruct (Z.ltb_spec newBalance 0); [done|]. simpl.
  intros j r' Hj. simpl in Hj. destruct (decide (id = j)) as [->|Hne].
  - rewrite lookup_insert_eq in Hj. by injection Hj as <-.
  - rewrite lookup_insert_ne in Hj by done. by eapply Hs.
Qed.

Lemma insert_transaction_accounts (t : Transaction) (s : Session) :
  accounts (tables (snd (insert_transaction t s))) = accounts (tables s).
Proof.
  unfold insert_transaction, fault, throw.
  repeat case_match; simplify_eq; done.
Qed.

Lemma select_account_for_update_tables (id : string) (s : Session) :
  tables (snd (select_account_for_update id s)) = tables s.
Proof. unfold select_account_for_update. by destruct (select_account _ _). Qed.

(** Whatever a callback of the ledger has written when it returns or
    throws, no balance is below zero. *)
Lemma callbacks_keep_balances_nonneg :
  (forall transactionId request,
     preserves nonneg_balances
       (recordTransaction_callback transactionId request)) /\
  (forall debitId creditId request,
     preserves nonneg_balances (transfer_callback debitId creditId request)).
Proof.
  assert (Hins : forall row : Session -> Transaction,
    preserves nonneg_balances (fun s => insert_transaction (row s) s)).
  { intros row s Hs id r. rewrite insert_transaction_accounts. apply Hs. }
  assert (Hsel : forall id,
    preserves nonneg_balances (select_account_for_update id)).
  { intros id s Hs. by rewrite select_account_for_update_tables. }
  split.
  - intros transactionId request.
    unfold recordTransaction_callback, getAccountWithLock.
    apply preserves_bind.
    { apply preserves_bind; [apply Hsel|]. intros [|row rows] s Hs; exact Hs. }
    intros [account|]; [|intros s Hs; exact Hs].
    unfold recordTransaction_locked.
    apply preserves_bind.
    { intros s Hs. unfold new_balance, ret, throw.
      destruct (rt_type request); simpl; try exact Hs;
        by destruct (_ <? _). }
    intros newBalance.
    apply preserves_bind; [apply updateAccountBalance_nonneg|]. intros _.
    apply preserves_bind; [apply Hins|]. intros [|row rows] s Hs; exact Hs.
  - intros debitId creditId request. unfold transfer_callback. cbn zeta.
    apply preserves_bind; [apply Hsel|]. intros fromAccount.
    apply preserves_bind; [apply Hsel|]. intros toAccount.
    destruct fromAccount as [|fromRow ?]; [intros s Hs; exact Hs|].
    destruct toAccount as [|toRow ?]; [intros s Hs; exact Hs|].
    destruct (negb _); [intros s Hs; exact Hs|].
    destruct (_ <? _); [intros s Hs; exact Hs|].
    apply preserves_bind; [apply updateAccountBalance_nonneg|]. intros _.
    apply preserves_bind; [apply updateAccountBalance_nonneg|]. intros _.
    apply preserves_bind; [apply Hins|]. intros _.
    apply preserves_bind; [apply Hins|]. intros _.
    apply preserves_bind; [intros s Hs; exact Hs|]. intros debitResult.
    apply preserves_bind; [intros s Hs; exact Hs|]. intros creditResult.
    destruct debitResult, creditResult; intros s Hs; exact Hs.
Qed.

(** ** Requests in flight at once *)

(** The locks a session holds play no part in what the rest of the
    callback computes. *)
Lemma lock_blind_bind {A B} (m : Tx A) (k : A -> Tx B) :
  lock_blind m -> (forall a, lock_blind (k a)) -> lock_blind (bind m k).
Proof.
  intros Hm Hk s1 s2 Hs. unfold bind.
  destruct (Hm s1 s2 Hs) as [Hres Hs'].
  destruct (m s1) as [[a1|e1] s1'], (m s2) as [[a2|e2] s2'];
    simpl in *; simplify_eq; [by apply Hk|done].
Qed.

Lemma lock_blind_new_balance (request : RecordTransactionRequest)
    (account : Account) :
  lock_blind (new_balance request account).
Proof.
  intros s1 s2 Hs. unfold new_balance, ret, throw. simpl.
  destruct (rt_type request); simpl; try done;
    by destruct (_ <? _).
Qed.

Lemma lock_blind_updateAccountBalance (id : string) (newBalance version : Z) :
  lock_blind (updateAccountBalance id newBalance version).
Proof.
  intros s1 s2 [Ht Hc]. unfold updateAccountBalance, bind,
    update_account_balance, throw, ret, same_data.
  rewrite Ht, Hc.
  destruct (accounts (tables s2) !! id) as [r|]; [|done].
  destruct (row_version r =? version); [|done].
  destruct (newBalance <? 0); simpl; by rewrite ?Ht.
Qed.

Lemma lock_blind_insert (row : Z -> Transaction) :
  lock_blind (fun s => insert_transaction (row (current_timestamp s)) s).
Proof.
  intros s1 s2 [Ht Hc]. unfold insert_transaction, fault, throw, same_data.
  rewrite Ht, Hc. simpl.
  repeat (match goal with
          | |- context [if ?b then _ else _] => destruct b
          | |- context [match ?o with Some _ => _ | None => _ end] =>
              destruct o
          end; simpl; try done).
Qed.

Lemma lock_blind_recordTransaction_locked (transactionId : string)
    (request : RecordTransactionRequest) (account : option Account) :
  lock_blind (recordTransaction_locked transactionId request account).
Proof.
  unfold recordTransaction_locked. destruct account as [account|]; [|done].
  apply lock_blind_bind; [apply lock_blind_new_balance|]. intros newBalance.
  apply lock_blind_bind; [apply lock_blind_updateAccountBalance|]. intros _.
  apply lock_blind_bind.
  - apply (lock_blind_insert (fun now =>
      {| tx_id := transactionId; tx_account_id := acct_id account;
         tx_type := rt_type request; tx_amount := rt_amount request;
         tx_balance_after := newBalance; tx_related_transaction_id := None;
         tx_description := or_null (rt_description request);
         tx_created_at := now |})).
  - by intros [|row rows].
Qed.

(** [recordTransaction], cut where the lock is granted. *)
Lemma recordTransaction_as_locked (now : Z) (transactionId : string)
    (request : RecordTransactionRequest) (db : Db) :
  exists account client,
    getAccountWithLock (rt_account_id request) (begin now db)
      = (Ok account, client) /\
    recordTransaction now transactionId request db
      = transaction now
          (recordTransaction_locked transactionId request account) db.
Proof.
  assert (Hlock : exists account client,
    getAccountWithLock (rt_account_id request) (begin now db)
      = (Ok account, client) /\ same_data (begin now db) client).
  { destruct (accounts db !! rt_account_id request) as [r|] eqn:Hr.
    - eexists _, _. split; [by apply (getAccountWithLock_Some _ _ r)|done].
    - eexists _, _. split; [by apply getAccountWithLock_None|done]. }
  destruct Hlock as (account & client & Hlock & Hclient).
  exists account, client. split; [exact Hlock|].
  unfold recordTransaction, recordTransaction_callback, transaction.
  rewrite (bind_Ok _ _ _ _ _ Hlock).
  destruct (lock_blind_recordTransaction_locked transactionId request account
              _ _ Hclient) as [Hres [Htab _]].
  destruct (recordTransaction_locked _ _ _ (begin _ _)) as [[t|e] s1];
    destruct (recordTransaction_locked _ _ _ client) as [[t'|e'] s2];
    simpl in *; simplify_eq; by rewrite ?Htab.
Qed.

(** A request that makes its two moves with nothing in between does what
    [recordTransaction] does on the committed tables. *)
Lemma two_moves_are_recordTransaction (jobs : list Concurrent.Job)
    (w : Concurrent.World) (i : nat) (job : Concurrent.Job) :
  jobs !! i = Some job ->
  Concurrent.phases w !! i = Some Concurrent.Waiting ->
  Concurrent.locked (rt_account_id (Concurrent.job_request job)) w = false ->
  let done := recordTransaction (Concurrent.job_now job)
                (Concurrent.job_transactionId job)
                (Concurrent.job_request job) (Concurrent.committed w) in
  Concurrent.run jobs [i; i] w =
    Some {| Concurrent.committed := snd done;
            Concurrent.phases :=
              <[i := Concurrent.Finished (fst done)]> (Concurrent.phases w) |}.
Proof.
  intros Hjob Hi Hfree done.
  destruct (recordTransaction_as_locked (Concurrent.job_now job)
              (Concurrent.job_transactionId job) (Concurrent.job_request job)
              (Concurrent.committed w)) as (account & client & Hlock & Hrec).
  subst done. rewrite Hrec. simpl. unfold Concurrent.step at 1.
  rewrite Hjob, Hi, Hfree, Hlock.
  unfold Concurrent.step. simpl Concurrent.phases.
  rewrite Hjob, list_lookup_insert_eq by by eapply lookup_lt_Some.
  simpl Concurrent.committed.
  destruct (transaction _ _ _) as [outcome db']. simpl.
  by rewrite list_insert_insert_eq.
Qed.

(** ** Withdrawals in flight at once *)

Section Withdrawals.

Import Concurrent.

Variables (accountId : string) (amount : Z) (db : Db) (r0 : AccountRow).
Variable idns : list (string * Z).

Let jobs : list Job := map (withdrawal accountId amount) idns.

Hypothesis account_exists : accounts db !! accountId = Some r0.
Hypothesis balance_nonneg : 0 <= row_balance r0.
Hypothesis amount_pos : 0 < amount.
Hypothesis ids_distinct : NoDup (map fst idns).
Hypothesis ids_unused :
  forall id, id ∈ map fst idns -> id ∉ transaction_ids db.

Lemma successes_insert (w : World) (i : nat) (p q : Phase) :
  phases w !! i = Some p ->
  successes {| committed := committed w; phases := <[i := q]> (phases w) |}
    + (if succeeded p then 1 else 0)
  = successes w + (if succeeded q then 1 else 0).
Proof.
  unfold successes. simpl. generalize (phases w). clear.
  intros l. revert i. induction l as [|x l IH]; intros [|i] H;
    simpl in H; simplify_eq; simpl.
  - rewrite !filter_cons.
    destruct (succeeded p), (succeeded q); repeat case_decide;
      try done; simpl; lia.
  - specialize (IH i H). rewrite !filter_cons.
    case_decide; simpl in *; lia.
Qed.

Lemma job_lookup (i : nat) (job : Job) :
  jobs !! i = Some job ->
  exists idn, idns !! i = Some idn /\ job = withdrawal accountId amount idn.
Proof.
  unfold jobs. rewrite list_lookup_fmap.
  destruct (idns !! i) as [idn|]; [|discriminate].
  intros H. injection H as <-. by exists idn.
Qed.

Lemma start_invariant :
  Invariant accountId amount (row_balance r0) jobs (start jobs db) r0.
Proof.
  split; simpl.
  - by rewrite length_map.
  - exact account_exists.
  - unfold successes. simpl.
    assert (E : filter (fun p => succeeded p = true)
                  (map (fun _ : Job => Waiting) jobs) = []).
    { induction jobs as [|j l IH]; [done|]. simpl. rewrite filter_cons.
      by case_decide. }
    rewrite E. simpl. lia.
  - exact balance_nonneg.
  - intros i account locks H. rewrite list_lookup_fmap in H.
    by destruct (jobs !! i).
  - intros i j a l a' l' H. rewrite list_lookup_fmap in H.
    by destruct (jobs !! i).
  - intros i e H. rewrite list_lookup_fmap in H. by destruct (jobs !! i).
  - intros i job Hjob _.
    destruct (job_lookup i job Hjob) as (idn & Hidn & ->). simpl.
    apply ids_unused. apply list_elem_of_fmap. exists idn.
    split; [done|]. by eapply list_elem_of_lookup_2.
Qed.

Lemma todo_insert (w : World) (i : nat) (p q : Phase) :
  phases w !! i = Some p ->
  (todo {| committed := committed w; phases := <[i := q]> (phases w) |}
   + remaining p = todo w + remaining q)%nat.
Proof.
  unfold todo. simpl. generalize (phases w). clear.
  intros l. revert i. induction l as [|x l IH]; intros [|i] H;
    simpl in H; simplify_eq; simpl.
  - lia.
  - specialize (IH i H). lia.
Qed.

Lemma phase_after_insert (l : list Phase) (i j : nat) (p0 p q : Phase) :
  l !! i = Some p0 ->
  <[i := q]> l !! j = Some p ->
  j = i /\ p = q \/ j <> i /\ l !! j = Some p.
Proof.
  intros Hi Hj. destruct (decide (j = i)) as [->|Hne].
  - left. rewrite list_lookup_insert_eq in Hj by by eapply lookup_lt_Some.
    by injection Hj as <-.
  - right. by rewrite list_lookup_insert_ne in Hj.
Qed.

Lemma unlocked_no_holder (w : World) (r : AccountRow) (i : nat)
    (account : option Account) (locks : list string) :
  Invariant accountId amount (row_balance r0) jobs w r ->
  locked accountId w = false ->
  phases w !! i <> Some (Holding account locks).
Proof.
  intros Hinv Hfree Hi.
  destruct (inv_holder _ _ _ _ _ _ Hinv i account locks Hi) as [_ ->].
  unfold locked in Hfree. apply bool_decide_eq_false_1 in Hfree.
  apply Hfree. apply list_elem_of_In, in_concat. exists [accountId].
  split; [|by left].
  apply list_elem_of_In, list_elem_of_fmap.
  exists (Holding account [accountId]).
  split; [done|]. by eapply list_elem_of_lookup_2.
Qed.

(** Being granted the lock. *)
Lemma acquire_invariant (w : World) (r : AccountRow) (i : nat) :
  Invariant accountId amount (row_balance r0) jobs w r ->
  phases w !! i = Some Waiting ->
  locked accountId w = false ->
  Invariant accountId amount (row_balance r0) jobs
    {| committed := committed w;
       phases := <[i := Holding (Some (account_of_row accountId r))
                           [accountId]]> (phases w) |} r.
Proof.
  intros Hinv Hi Hfree.
  pose proof (successes_insert w i Waiting
    (Holding (Some (account_of_row accountId r)) [accountId]) Hi) as Hs.
  simpl in Hs.
  split; simpl.
  - rewrite length_insert. by destruct Hinv.
  - by destruct Hinv.
  - rewrite (inv_balance _ _ _ _ _ _ Hinv). lia.
  - by destruct Hinv.
  - intros j a l Hj.
    destruct (phase_after_insert _ _ _ _ _ _ Hi Hj) as [[-> E]|[_ Hold]].
    + by injection E as -> ->.
    + by destruct (unlocked_no_holder w r j a l Hinv Hfree).
  - intros j k a l a' l' Hj Hk.
    destruct (phase_after_insert _ _ _ _ _ _ Hi Hj) as [[-> _]|[_ Hold]];
      [|by destruct (unlocked_no_holder w r j a l Hinv Hfree)].
    destruct (phase_after_insert _ _ _ _ _ _ Hi Hk) as [[-> _]|[_ Hold]];
      [done|by destruct (unlocked_no_holder w r k a' l' Hinv Hfree)].
  - intros j e Hj.
    destruct (phase_after_insert _ _ _ _ _ _ Hi Hj) as [[_ E]|[_ Hold]];
      [discriminate|].
    by apply (inv_failed _ _ _ _ _ _ Hinv j).
  - intros j job Hjob Hnf.
    apply (inv_fresh _ _ _ _ _ _ Hinv j job Hjob).
    intros outcome Hold. destruct (decide (j = i)) as [->|Hne].
    + rewrite Hi in Hold. discriminate.
    + apply (Hnf outcome). by rewrite list_lookup_insert_ne.
Qed.

(** What the holder's unit of work makes of the committed tables. *)
Lemma holder_outcome (w : World) (r : AccountRow) (i : nat) (idn : string * Z)
    (account : option Account) (locks : list string) :
  Invariant accountId amount (row_balance r0) jobs w r ->
  idns !! i = Some idn ->
  phases w !! i = Some (Holding account locks) ->
  let job := withdrawal accountId amount idn in
  let run := transaction (job_now job)
               (recordTransaction_locked (job_transactionId job)
                  (job_request job) account) (committed w) in
  (amount <= row_balance r ->
     exists t,
       run = (Ok t,
              {| accounts :=
                   <[accountId := updated_row r (row_balance r - amount)
                                    (snd idn)]> (accounts (committed w));
                 transactions := transactions (committed w) ++ [t];
                 idempotency_keys := idempotency_keys (committed w) |}) /\
       tx_id t = fst idn) /\
  (row_balance r < amount -> run = (Err InsufficientFunds, committed w)).
Proof.
  intros Hinv Hidn Hi job run.
  destruct (inv_holder _ _ _ _ _ _ Hinv i account locks Hi) as [-> ->].
  pose proof (inv_row _ _ _ _ _ _ Hinv) as Hrow.
  assert (Hjob : jobs !! i = Some job).
  { unfold jobs. rewrite list_lookup_fmap, Hidn. done. }
  split.
  - intros Hle. subst run. unfold transaction.
    pose proof (recordTransaction_locked_posts
                  (begin (job_now job) (committed w))
                  (job_transactionId job) (job_request job) r
                  (row_balance r - amount)) as Hposts.
    cbn zeta in Hposts.
    change (rt_account_id (job_request job)) with accountId in Hposts.
    rewrite Hposts; simpl; try done; try lia.
    + by eexists.
    + apply (inv_fresh _ _ _ _ _ _ Hinv i job Hjob).
      intros outcome E. rewrite Hi in E. discriminate.
    + apply new_balance_withdrawal; simpl; [discriminate|lia].
  - intros Hlt. subst run. unfold transaction, recordTransaction_locked.
    unfold bind at 1.
    rewrite new_balance_insufficient; simpl; [done|discriminate|lia].
Qed.

(** The holder commits a withdrawal. *)
Lemma commit_invariant (w : World) (r : AccountRow) (i : nat)
    (idn : string * Z) (account : option Account) (locks : list string)
    (t : Transaction) :
  Invariant accountId amount (row_balance r0) jobs w r ->
  idns !! i = Some idn ->
  phases w !! i = Some (Holding account locks) ->
  amount <= row_balance r ->
  tx_id t = fst idn ->
  Invariant accountId amount (row_balance r0) jobs
    {| committed :=
         {| accounts :=
              <[accountId := updated_row r (row_balance r - amount)
                               (snd idn)]> (accounts (committed w));
            transactions := transactions (committed w) ++ [t];
            idempotency_keys := idempotency_keys (committed w) |};
       phases := <[i := Finished (Ok t)]> (phases w) |}
    (updated_row r (row_balance r - amount) (snd idn)).
Proof.
  intros Hinv Hidn Hi Hle Ht.
  pose proof (successes_insert w i _ (Finished (Ok t)) Hi) as Hs.
  simpl in Hs. unfold successes in *. simpl in *.
  assert (Hother : forall j a l,
    <[i := Finished (Ok t)]> (phases w) !! j <> Some (Holding a l)).
  { intros j a l Hj.
    destruct (phase_after_insert _ _ _ _ _ _ Hi Hj) as [[_ E]|[Hne Hold]];
      [discriminate|].
    apply Hne. symmetry.
    by apply (inv_single _ _ _ _ _ _ Hinv i j account locks a l). }
  split; simpl.
  - rewrite length_insert. by destruct Hinv.
  - apply lookup_insert_eq.
  - unfold successes. simpl. rewrite (inv_balance _ _ _ _ _ _ Hinv).
    unfold successes. lia.
  - lia.
  - intros j a l Hj. by destruct (Hother j a l).
  - intros j k a l a' l' Hj. by destruct (Hother j a l).
  - intros j e Hj.
    destruct (phase_after_insert _ _ _ _ _ _ Hi Hj) as [[_ E]|[_ Hold]];
      [discriminate|].
    destruct (inv_failed _ _ _ _ _ _ Hinv j e Hold) as [-> Hlow]. lia.
  - intros j job Hjob Hnf.
    destruct (decide (j = i)) as [->|Hne].
    { destruct (Hnf (Ok t)). apply list_lookup_insert_eq.
      by eapply lookup_lt_Some. }
    unfold transaction_ids. simpl. rewrite map_app. simpl.
    intros Hin. apply elem_of_app in Hin as [Hin|Hin].
    + revert Hin. apply (inv_fresh _ _ _ _ _ _ Hinv j job Hjob).
      intros outcome Hold. apply (Hnf outcome).
      by rewrite list_lookup_insert_ne.
    + apply list_elem_of_singleton in Hin.
      destruct (job_lookup j job Hjob) as (idn' & Hidn' & ->).
      simpl in Hin. rewrite Ht in Hin. apply Hne.
      apply (NoDup_lookup (map fst idns) j i (fst idn)); [done| |].
      * rewrite list_lookup_fmap, Hidn'. simpl. by rewrite Hin.
      * by rewrite list_lookup_fmap, Hidn.
Qed.

(** The holder is refused and rolls back. *)
Lemma refusal_invariant (w : World) (r : AccountRow) (i : nat)
    (account : option Account) (locks : list string) :
  Invariant accountId amount (row_balance r0) jobs w r ->
  phases w !! i = Some (Holding account locks) ->
  row_balance r < amount ->
  Invariant accountId amount (row_balance r0) jobs
    {| committed := committed w;
       phases := <[i := Finished (Err InsufficientFunds)]> (phases w) |} r.
Proof.
  intros Hinv Hi Hlt.
  pose proof (successes_insert w i _ (Finished (Err InsufficientFunds)) Hi)
    as Hs.
  simpl in Hs.
  assert (Hother : forall j a l,
    <[i := Finished (Err InsufficientFunds)]> (phases w) !! j
      <> Some (Holding a l)).
  { intros j a l Hj.
    destruct (phase_after_insert _ _ _ _ _ _ Hi Hj) as [[_ E]|[Hne Hold]];
      [discriminate|].
    apply Hne. symmetry.
    by apply (inv_single _ _ _ _ _ _ Hinv i j account locks a l). }
  split; simpl.
  - rewrite length_insert. by destruct Hinv.
  - by destruct Hinv.
  - rewrite (inv_balance _ _ _ _ _ _ Hinv). lia.
  - by destruct Hinv.
  - intros j a l Hj. by destruct (Hother j a l).
  - intros j k a l a' l' Hj. by destruct (Hother j a l).
  - intros j e Hj.
    destruct (phase_after_insert _ _ _ _ _ _ Hi Hj) as [[_ E]|[_ Hold]].
    + by injection E as <-.
    + by apply (inv_failed _ _ _ _ _ _ Hinv j).
  - intros j job Hjob Hnf.
    apply (inv_fresh _ _ _ _ _ _ Hinv j job Hjob).
    intros outcome Hold. destruct (decide (j = i)) as [->|Hne].
    + destruct (Hnf (Err InsufficientFunds)). apply list_lookup_insert_eq.
      by eapply lookup_lt_Some.
    + apply (Hnf outcome). by rewrite list_lookup_insert_ne.
Qed.

Lemma step_invariant (w w' : World) (r : AccountRow) (i : nat) :
  Invariant accountId amount (row_balance r0) jobs w r ->
  step jobs i w = Some w' ->
  (exists r', Invariant accountId amount (row_balance r0) jobs w' r') /\
  todo w = S (todo w').
Proof.
  intros Hinv. unfold step.
  destruct (jobs !! i) as [job|] eqn:Hjob; [|discriminate].
  destruct (job_lookup i job Hjob) as (idn & Hidn & ->).
  destruct (phases w !! i) as [[|account locks|outcome]|] eqn:Hi;
    try discriminate.
  - simpl rt_account_id.
    destruct (locked accountId w) eqn:Hfree; [discriminate|].
    rewrite (getAccountWithLock_Some accountId _ r)
      by exact (inv_row _ _ _ _ _ _ Hinv).
    simpl row_locks. intros [= <-]. split.
    + exists r. by apply acquire_invariant.
    + pose proof (todo_insert w i Waiting
        (Holding (Some (account_of_row accountId r)) [accountId]) Hi) as Ht.
      simpl in Ht. lia.
  - destruct (holder_outcome w r i idn account locks Hinv Hidn Hi)
      as [Hok Hlow].
    destruct (Z.le_gt_cases amount (row_balance r)) as [Hle|Hlt].
    + destruct (Hok Hle) as (t & -> & Ht). intros [= <-]. split.
      * eexists. by eapply commit_invariant.
      * pose proof (todo_insert w i _ (Finished (Ok t)) Hi) as Hm.
        simpl in Hm. unfold todo in *. simpl in *. lia.
    + rewrite (Hlow Hlt). intros [= <-]. split.
      * exists r. by eapply refusal_invariant.
      * pose proof (todo_insert w i _ (Finished (Err InsufficientFunds)) Hi)
          as Hm.
        simpl in Hm. lia.
Qed.

Lemma run_invariant (schedule : list nat) (w w' : World) (r : AccountRow) :
  Invariant accountId amount (row_balance r0) jobs w r ->
  run jobs schedule w = Some w' ->
  exists r', Invariant accountId amount (row_balance r0) jobs w' r'.
Proof.
  revert w r. induction schedule as [|i rest IH]; intros w r Hinv; simpl.
  - intros [= <-]. by exists r.
  - destruct (step jobs i w) as [w1|] eqn:Hstep; [|discriminate].
    destruct (step_invariant w w1 r i Hinv Hstep) as [[r1 Hinv1] _].
    by apply (IH w1 r1).
Qed.

Lemma unfinished_phase (l : list Phase) :
  forallb is_finished l = false ->
  exists i p, l !! i = Some p /\ is_finished p = false.
Proof.
  induction l as [|p l IH]; simpl; [discriminate|].
  destruct (is_finished p) eqn:Hp; simpl.
  - intros H. destruct (IH H) as (i & q & Hi & Hq). by exists (S i), q.
  - intros _. by exists 0%nat, p.
Qed.

(** No deadlock: while a request is unfinished, some request can move. *)
Lemma progress (w : World) (r : AccountRow) :
  Invariant accountId amount (row_balance r0) jobs w r ->
  all_finished w = false ->
  exists i w', step jobs i w = Some w'.
Proof.
  intros Hinv Hnot.
  assert (Hmoves : forall k a l, phases w !! k = Some (Holding a l) ->
            exists w', step jobs k w = Some w').
  { intros k a l Hk. unfold step.
    destruct (jobs !! k) as [job|] eqn:Hjob.
    - rewrite Hk. destruct (transaction _ _ _). by eexists.
    - apply lookup_ge_None in Hjob. apply lookup_lt_Some in Hk.
      rewrite (inv_length _ _ _ _ _ _ Hinv) in Hk. lia. }
  destruct (unfinished_phase (phases w) Hnot) as (i & p & Hi & Hp).
  destruct p as [|a l|outcome]; [| |done].
  - destruct (locked accountId w) eqn:Hlocked.
    + unfold locked in Hlocked. apply bool_decide_eq_true_1 in Hlocked.
      apply list_elem_of_In, in_concat in Hlocked as (ls & Hls & Hid).
      apply list_elem_of_In, list_elem_of_fmap in Hls as (q & -> & Hq).
      apply list_elem_of_lookup in Hq as [k Hk].
      destruct q as [|a l|outcome]; try done.
      exists k. by eapply Hmoves.
    + exists i. unfold step.
      destruct (jobs !! i) as [job|] eqn:Hjob.
      * rewrite Hi.
        destruct (job_lookup i job Hjob) as (idn & _ & ->). simpl.
        rewrite Hlocked. destruct (getAccountWithLock _ _) as [[?|?] ?];
          by eexists.
      * apply lookup_ge_None in Hjob. apply lookup_lt_Some in Hi.
        rewrite (inv_length _ _ _ _ _ _ Hinv) in Hi. lia.
  - exists i. by eapply Hmoves.
Qed.

(** Every run can be carried on until all requests have finished. *)
Lemma completion (n : nat) (w : World) (r : AccountRow) :
  todo w = n ->
  Invariant accountId amount (row_balance r0) jobs w r ->
  exists rest w', run jobs rest w = Some w' /\ all_finished w' = true.
Proof.
  revert w r. induction n as [|n IH]; intros w r Hn Hinv;
    (destruct (all_finished w) eqn:Hall; [by exists [], w|]);
    destruct (progress w r Hinv Hall) as (i & w1 & Hstep);
    destruct (step_invariant w w1 r i Hinv Hstep) as [[r1 Hinv1] Htodo].
  - lia.
  - destruct (IH w1 r1) as (rest & w' & Hrun & Hfin); [lia|done|].
    exists (i :: rest), w'. simpl. by rewrite Hstep.
Qed.

Lemma finished_count (l : list Phase) :
  forallb is_finished l = true ->
  (exists i e, l !! i = Some (Finished (Err e))) \/
  length (filter (fun p => succeeded p = true) l) = length l.
Proof.
  induction l as [|p l IH]; simpl; [by right|].
  intros H. apply andb_true_iff in H as [Hp Hl].
  destruct (IH Hl) as [(i & e & Hi)|Hlen].
  - left. by exists (S i), e.
  - destruct p as [|a locks|[t|e]]; try done.
    + right. rewrite filter_cons. simpl. by rewrite Hlen.
    + left. by exists 0%nat, e.
Qed.


End Withdrawals.


(** * Further properties *)

(** ** Accounts *)

Lemma owned_by_lookup (user_id : string) (currency : Currency) (db : Db)
    (id : string) (r : AccountRow) :
  owned_by user_id currency db !! id = Some r <->
  accounts db !! id = Some r /\
  row_user_id r = user_id /\ row_currency r = currency.
Proof. unfold owned_by. by rewrite map_lookup_filter_Some. Qed.

Lemma select_accounts_of_nil (user_id : string) (currency : Currency)
    (db : Db) :
  select_accounts_of user_id currency db = [] <->
  forall id r, accounts db !! id = Some r ->
    row_user_id r = user_id -> row_currency r <> currency.
Proof.
  unfold select_accounts_of. split.
  - intros H id r Hr Hu Hc.
    apply fmap_nil_inv, map_to_list_empty_iff in H.
    assert (E : owned_by user_id currency db !! id = Some r)
      by by apply owned_by_lookup.
    rewrite H in E. by rewrite lookup_empty in E.
  - intros H.
    assert (E : owned_by user_id currency db = ∅).
    { apply map_empty. intros id.
      destruct (owned_by user_id currency db !! id) as [r|] eqn:E; [|done].
      apply owned_by_lookup in E as (Hr & Hu & Hc).
      by destruct (H id r Hr Hu). }
    rewrite E. by rewrite map_to_list_empty.
Qed.

Lemma select_accounts_of_new (user_id : string) (currency : Currency)
    (db : Db) (id : string) (now : Z) :
  select_accounts_of user_id currency db = [] ->
  select_accounts_of user_id currency
    (set_accounts db
       (<[id := new_account_row user_id currency now]> (accounts db)))
  = [account_of_row id (new_account_row user_id currency now)].
Proof.
  intros H. unfold select_accounts_of in *.
  apply fmap_nil_inv, map_to_list_empty_iff in H.
  unfold owned_by in *. simpl.
  rewrite map_filter_insert_True by done.
  rewrite H.
  change (<[id:=?r]> ∅) with ({[id := r]} : gmap string AccountRow).
  by rewrite map_to_list_singleton.
Qed.

Lemma createAccount_fresh (id : string) (now : Z)
    (request : CreateAccountRequest) (db : Db) :
  accounts db !! id = None ->
  (forall id' r', accounts db !! id' = Some r' ->
     row_user_id r' = ca_user_id request ->
     row_currency r' <> ca_currency request) ->
  exists account db',
    createAccount id now request db = (Fulfilled account, db').
Proof.
  intros Hid Hnone. apply select_accounts_of_nil in Hnone.
  eexists _, _. unfold createAccount, insert_account.
  rewrite bool_decide_eq_false_2 by (rewrite Hid; by intros [? ?]).
  by rewrite Hnone.
Qed.





(** ** Deposits and withdrawals: every outcome *)

(** [recordTransaction], case by case. *)
Lemma recordTransaction_cases (now : Z) (transactionId : string)
    (request : RecordTransactionRequest) (db : Db) :
  recordTransaction now transactionId request db =
    match accounts db !! rt_account_id request with
    | None => (Err (AccountNotFound TheAccount), db)
    | Some r =>
        let newBalance := balance_wanted request r in
        if newBalance <? 0 then
          if decide (rt_type request = DEPOSIT) then
            (Err (InternalFailure
                    (ConstraintViolation accounts_balance_check)), db)
          else (Err InsufficientFunds, db)
        else if rt_amount request <=? 0 then
          (Err (InternalFailure
                  (ConstraintViolation transactions_amount_check)), db)
        else if bool_decide (transactionId ∈ transaction_ids db) then
          (Err (InternalFailure (ConstraintViolation transactions_pkey)), db)
        else
          let t := posted_row now transactionId request newBalance in
          (Ok t, posted_db now request r newBalance t db)
    end.
Proof.
  unfold recordTransaction, transaction, recordTransaction_callback.
  destruct (accounts db !! rt_account_id request) as [r|] eqn:Hr.
  2:{ erewrite bind_Ok by (by apply getAccountWithLock_None). reflexivity. }
  erewrite bind_Ok by (by apply (getAccountWithLock_Some _ _ r)).
  unfold recordTransaction_locked, balance_wanted. cbn zeta.
  destruct (decide (rt_type request = DEPOSIT)) as [Hty|Hty].
  - erewrite bind_Ok by (by apply new_balance_deposit).
    simpl acct_balance. simpl acct_id. simpl acct_version.
    destruct (Z.ltb_spec (row_balance r + rt_amount request) 0) as [Hn|Hn].
    { erewrite bind_Err by (by apply updateAccountBalance_check).
      reflexivity. }
    erewrite bind_Ok by (by apply updateAccountBalance_ok).
    unfold bind, insert_transaction. simpl.
    destruct (Z.leb_spec (rt_amount request) 0),
      (Z.ltb_spec 0 (rt_amount request)); try lia; simpl; [reflexivity|].
    destruct (Z.ltb_spec (row_balance r + rt_amount request) 0); [lia|].
    change (transaction_ids (set_accounts db _)) with (transaction_ids db).
    destruct (bool_decide (transactionId ∈ transaction_ids db));
      [reflexivity|].
    rewrite lookup_insert_eq. reflexivity.
  - simpl acct_balance. simpl acct_id. simpl acct_version.
    destruct (Z.ltb_spec (row_balance r - rt_amount request) 0) as [Hn|Hn].
    { erewrite bind_Err; [reflexivity|].
      apply new_balance_insufficient; simpl; [done|lia]. }
    erewrite bind_Ok
      by (apply new_balance_withdrawal; simpl; [done|lia]).
    simpl acct_balance.
    erewrite bind_Ok by (by apply updateAccountBalance_ok).
    unfold bind, insert_transaction. simpl.
    destruct (Z.leb_spec (rt_amount request) 0),
      (Z.ltb_spec 0 (rt_amount request)); try lia; simpl; [reflexivity|].
    destruct (Z.ltb_spec (row_balance r - rt_amount request) 0); [lia|].
    change (transaction_ids (set_accounts db _)) with (transaction_ids db).
    destruct (bool_decide (transactionId ∈ transaction_ids db));
      [reflexivity|].
    rewrite lookup_insert_eq. reflexivity.
Qed.

Lemma recordTransaction_Ok_shape (now : Z) (transactionId : string)
    (request : RecordTransactionRequest) (db db' : Db) (t : Transaction) :
  recordTransaction now transactionId request db = (Ok t, db') ->
  exists r,
    accounts db !! rt_account_id request = Some r /\
    0 <= balance_wanted request r /\
    0 < rt_amount request /\
    (transactionId ∉ transaction_ids db) /\
    t = posted_row now transactionId request (balance_wanted request r) /\
    db' = posted_db now request r (balance_wanted request r) t db.
Proof.
  rewrite recordTransaction_cases.
  destruct (accounts db !! rt_account_id request) as [r|]; [|discriminate].
  cbn zeta.
  destruct (Z.ltb_spec (balance_wanted request r) 0).
  { destruct (decide _); discriminate. }
  destruct (Z.leb_spec (rt_amount request) 0); [discriminate|].
  destruct (bool_decide (transactionId ∈ transaction_ids db)) eqn:Hid;
    [discriminate|].
  intros [= <- <-]. exists r.
  apply bool_decide_eq_false_1 in Hid. by repeat split.
Qed.







(** ** What every history keeps *)

Lemma createAccount_cases (id : string) (now : Z)
    (request : CreateAccountRequest) (db : Db) :
  (exists e, createAccount id now request db = (Rejected e, db)) \/
  accounts db !! id = None /\
  select_accounts_of (ca_user_id request) (ca_currency request) db = [] /\
  snd (createAccount id now request db) =
    set_accounts db
      (<[id := new_account_row (ca_user_id request) (ca_currency request)
                 now]> (accounts db)).
Proof.
  unfold createAccount, insert_account.
  destruct (accounts db !! id) as [r|] eqn:Hid.
  { left. rewrite bool_decide_eq_true_2 by by eexists. by eexists. }
  rewrite bool_decide_eq_false_2 by by intros [? ?].
  destruct (select_accounts_of _ _ db) as [|row rows] eqn:Hrows.
  - right. by repeat split.
  - left. by eexists.
Qed.

Lemma transfer_changes_nothing (now : Z) (debitId creditId : string)
    (request : TransferRequest) (db : Db) :
  snd (transfer now debitId creditId request db) = db.
Proof.
  destruct (transfer now debitId creditId request db) as [[pair|e] db'] eqn:H.
  - by destruct (transfer_never_commits _ _ _ _ _ _ _ H).
  - unfold transfer in H. destruct (String.eqb _ _).
    + by injection H as _ <-.
    + simpl. by eapply transaction_rolls_back.
Qed.

Lemma consistent_createAccount (id : string) (now : Z)
    (request : CreateAccountRequest) (db : Db) :
  consistent db -> consistent (snd (createAccount id now request db)).
Proof.
  intros Hc.
  destruct (createAccount_cases id now request db)
    as [[e ->]|(Hid & Hnone & ->)]; [done|].
  pose proof (proj1 (select_accounts_of_nil _ _ _) Hnone) as Hfree.
  destruct Hc as [Hids Hown Hchk Hrel Hbal Huniq].
  split; simpl; try done.
  - intros t Ht. destruct (decide (id = tx_account_id t)) as [->|Hne].
    + rewrite lookup_insert_eq. by eexists.
    + rewrite lookup_insert_ne by done. by apply Hown.
  - intros j r Hj. simpl in Hj. destruct (decide (id = j)) as [->|Hne].
    + rewrite lookup_insert_eq in Hj. by injection Hj as <-.
    + rewrite lookup_insert_ne in Hj by done. by eapply Hbal.
  - intros id1 id2 r1 r2 H1 H2 Hu Hcur. simpl in H1, H2.
    destruct (decide (id = id1)) as [E1|Hne1];
      destruct (decide (id = id2)) as [E2|Hne2]; [congruence| | |].
    + rewrite E1, lookup_insert_eq in H1. injection H1 as <-.
      rewrite lookup_insert_ne in H2 by done. simpl in *.
      destruct (Hfree id2 r2 H2); congruence.
    + rewrite E2, lookup_insert_eq in H2. injection H2 as <-.
      rewrite lookup_insert_ne in H1 by done. simpl in *.
      destruct (Hfree id1 r1 H1); congruence.
    + rewrite lookup_insert_ne in H1, H2 by done. by eapply Huniq.
Qed.

Lemma consistent_recordTransaction (now : Z) (transactionId : string)
    (request : RecordTransactionRequest) (db : Db) :
  consistent db ->
  consistent (snd (recordTransaction now transactionId request db)).
Proof.
  intros Hc.
  destruct (recordTransaction now transactionId request db)
    as [[t|e] db'] eqn:H.
  2:{ simpl. by rewrite (transaction_rolls_back _ _ _ _ _ H). }
  apply recordTransaction_Ok_shape in H
    as (r & Hr & Hnn & Ha & Hid & -> & ->).
  destruct Hc as [Hids Hown Hchk Hrel Hbal Huniq].
  set (id := rt_account_id request) in *.
  assert (Hlook : forall j x,
    <[id := updated_row r (balance_wanted request r) now]> (accounts db) !! j
      = Some x ->
    exists x0, accounts db !! j = Some x0 /\
      row_user_id x = row_user_id x0 /\ row_currency x = row_currency x0 /\
      (0 <= row_balance x0 -> 0 <= row_balance x)).
  { intros j x Hj. destruct (decide (id = j)) as [<-|Hne].
    - rewrite lookup_insert_eq in Hj. injection Hj as <-. by exists r.
    - rewrite lookup_insert_ne in Hj by done. by exists x. }
  split; unfold posted_db, posted_row; simpl.
  - unfold transaction_ids. simpl. rewrite map_app. simpl.
    apply NoDup_app. split; [done|]. split.
    + intros x Hx Hx'. apply list_elem_of_singleton in Hx'. by subst.
    + apply NoDup_singleton.
  - intros t Ht. apply elem_of_app in Ht as [Ht|Ht].
    + destruct (decide (id = tx_account_id t)) as [<-|Hne].
      * rewrite lookup_insert_eq. by eexists.
      * rewrite lookup_insert_ne by done. by apply Hown.
    + apply list_elem_of_singleton in Ht as ->. simpl. fold id.
      rewrite lookup_insert_eq. by eexists.
  - intros t Ht. apply elem_of_app in Ht as [Ht|Ht]; [by apply Hchk|].
    apply list_elem_of_singleton in Ht as ->. by simpl.
  - intros t x Ht Hx. unfold transaction_ids. simpl. rewrite map_app.
    apply elem_of_app in Ht as [Ht|Ht].
    + apply elem_of_app. left. by eapply Hrel.
    + apply list_elem_of_singleton in Ht as ->. discriminate Hx.
  - intros j x Hj. simpl in Hj.
    destruct (Hlook j x Hj) as (x0 & Hx0 & _ & _ & Hb).
    apply Hb. by eapply Hbal.
  - intros id1 id2 r1 r2 H1 H2 Hu Hcur.
    destruct (Hlook id1 r1 H1) as (x1 & Hx1 & Hu1 & Hc1 & _).
    destruct (Hlook id2 r2 H2) as (x2 & Hx2 & Hu2 & Hc2 & _).
    apply (Huniq id1 id2 x1 x2); congruence.
Qed.

(** X6: the constraints of the schema hold in every database that account
    creations, deposits, withdrawals, transfers and idempotency stores
    can build from the empty tables, whatever their arguments and whether
    they succeed or fail: transaction identifiers are unique, every row
    belongs to an existing account and has a positive amount, no balance
    is negative, and no owner has two accounts in one currency. *)
Theorem histories_are_consistent (ops : list Operation) :
  consistent (perform_all ops empty_db).
Proof.
  assert (Hstep : forall op db, consistent db -> consistent (perform op db)).
  { intros [id now request|now transactionId request
            |now debitId creditId request|call] db Hc; simpl.
    - by apply consistent_createAccount.
    - by apply consistent_recordTransaction.
    - by rewrite transfer_changes_nothing.
    - destruct (run_store_ledger call db) as [Ha Ht].
      destruct Hc as [Hids Hown Hchk Hrel Hbal Huniq].
      split; unfold transaction_ids, nonneg_balances in *;
        rewrite ?Ha, ?Ht; done. }
  assert (Hall : forall db, consistent db -> consistent (perform_all ops db)).
  { unfold perform_all. induction ops as [|op ops IH]; intros db Hc; [done|].
    simpl. apply IH. by apply Hstep. }
  apply Hall. split; simpl; try done.
  - apply NoDup_nil_2.
  - intros t Ht. inversion Ht.
  - intros t Ht. inversion Ht.
  - intros t r Ht. inversion Ht.
Qed.

Lemma net_snoc (rows : list Transaction) (t : Transaction) :
  foldr (fun t acc => signed t + acc) 0 (rows ++ [t])%list
  = foldr (fun t acc => signed t + acc) 0 rows + signed t.
Proof. induction rows as [|x rows IH]; simpl; lia. Qed.

Lemma rows_after_posting (j : string) (rows : list Transaction)
    (t : Transaction) :
  filter (of_account j) (rows ++ [t])%list =
    if decide (tx_account_id t = j)
    then (filter (of_account j) rows ++ [t])%list
    else filter (of_account j) rows.
Proof.
  rewrite filter_app, filter_cons, filter_nil. unfold of_account.
  destruct (decide (tx_account_id t = j)); [done|by rewrite app_nil_r].
Qed.

Lemma reconciled_createAccount (id : string) (now : Z)
    (request : CreateAccountRequest) (db : Db) :
  consistent db -> reconciled db ->
  reconciled (snd (createAccount id now request db)).
Proof.
  intros Hc Hr.
  destruct (createAccount_cases id now request db)
    as [[e ->]|(Hid & _ & ->)]; [done|].
  intros j x Hj. simpl in Hj. unfold net. simpl.
  destruct (decide (id = j)) as [E|Hne].
  - rewrite E, lookup_insert_eq in Hj. injection Hj as <-.
    assert (Hrows : filter (of_account j) (transactions db) = []).
    { destruct (filter (of_account j) (transactions db)) as [|t rest] eqn:Ef;
        [done|].
      assert (Ht : t ∈ filter (of_account j) (transactions db))
        by (rewrite Ef; left).
      apply list_elem_of_filter in Ht as [Hacc Ht].
      destruct (rows_owned _ Hc t Ht) as [x Hx].
      unfold of_account in Hacc. rewrite Hacc, <- E, Hid in Hx.
      discriminate Hx. }
    rewrite Hrows. by split.
  - rewrite lookup_insert_ne in Hj by done. by apply Hr.
Qed.

Lemma reconciled_recordTransaction (now : Z) (transactionId : string)
    (request : RecordTransactionRequest) (db : Db) :
  rt_type request = DEPOSIT \/ rt_type request = WITHDRAWAL ->
  reconciled db ->
  reconciled (snd (recordTransaction now transactionId request db)).
Proof.
  intros Hty Hrec.
  destruct (recordTransaction now transactionId request db)
    as [[t|e] db'] eqn:H.
  2:{ simpl. by rewrite (transaction_rolls_back _ _ _ _ _ H). }
  apply recordTransaction_Ok_shape in H
    as (r & Hr & Hnn & Ha & Hid & -> & ->).
  destruct (Hrec _ _ Hr) as [Hnet Hlast].
  intros j x Hj. unfold net, posted_db in *. simpl in *.
  rewrite rows_after_posting. simpl.
  destruct (decide (rt_account_id request = j)) as [<-|Hne].
  - rewrite lookup_insert_eq in Hj. injection Hj as <-. simpl.
    split.
    + rewrite net_snoc, <- Hnet. unfold signed, balance_wanted. simpl.
      destruct Hty as [-> | ->]; simpl; lia.
    + intros t. rewrite last_snoc. by intros [= <-].
  - rewrite lookup_insert_ne in Hj by done. by apply Hrec.
Qed.



(** ** Transfers: what is refused before anything is written *)

Lemma transfer_callback_checks (debitId creditId : string)
    (request : TransferRequest) (s : Session) :
  let from := tr_from_account_id request in
  let to := tr_to_account_id request in
  (accounts (tables s) !! from = None ->
   fst (transfer_callback debitId creditId request s)
     = Err (AccountNotFound FromAccount)) /\
  (forall rf, accounts (tables s) !! from = Some rf ->
     accounts (tables s) !! to = None ->
     fst (transfer_callback debitId creditId request s)
       = Err (AccountNotFound ToAccount)) /\
  (forall rf rt, accounts (tables s) !! from = Some rf ->
     accounts (tables s) !! to = Some rt ->
     row_currency rf <> row_currency rt ->
     fst (transfer_callback debitId creditId request s)
       = Err CurrencyMismatch) /\
  (forall rf rt, accounts (tables s) !! from = Some rf ->
     accounts (tables s) !! to = Some rt ->
     row_currency rf = row_currency rt ->
     row_balance rf < tr_amount request ->
     fst (transfer_callback debitId creditId request s)
       = Err InsufficientFunds).
Proof.
  intros from to. unfold transfer_callback. fold from to.
  repeat split.
  - intros Hf. unfold bind at 1.
    rewrite (select_account_for_update_None from s Hf).
    unfold bind at 1.
    destruct (select_account_for_update to s) as [[rows|e] s'] eqn:Hto.
    + reflexivity.
    + unfold select_account_for_update in Hto.
      destruct (select_account to (tables s)); discriminate Hto.
  - intros rf Hf Ht. unfold bind at 1.
    rewrite (select_account_for_update_Some from s rf Hf).
    unfold bind at 1.
    rewrite (select_account_for_update_None to (with_lock s from)) by exact Ht.
    reflexivity.
  - intros rf rt Hf Ht Hc. unfold bind at 1.
    rewrite (select_account_for_update_Some from s rf Hf).
    unfold bind at 1.
    rewrite (select_account_for_update_Some to (with_lock s from) rt)
      by exact Ht.
    simpl. rewrite bool_decide_eq_false_2 by exact Hc. reflexivity.
  - intros rf rt Hf Ht Hc Hb. unfold bind at 1.
    rewrite (select_account_for_update_Some from s rf Hf).
    unfold bind at 1.
    rewrite (select_account_for_update_Some to (with_lock s from) rt)
      by exact Ht.
    simpl. rewrite bool_decide_eq_true_2 by exact Hc. simpl.
    assert (Hlt : (row_balance rf - tr_amount request <? 0) = true)
      by (apply Z.ltb_lt; lia).
    rewrite Hlt. reflexivity.
Qed.

Lemma transaction_Err {A} (now : Z) (callback : Tx A) (db : Db)
    (e : LedgerError) :
  fst (callback (begin now db)) = Err e ->
  transaction now callback db = (Err e, db).
Proof.
  intros He. unfold transaction.
  destruct (callback (begin now db)) as [[a|e'] s]; simpl in He;
    [discriminate He|]. by injection He as ->.
Qed.



(** ** The error handler *)

Lemma prefix_append (needle post : string) :
  String.prefix needle (needle +:+ post) = true.
Proof.
  induction needle as [|c needle IH]; simpl; [by destruct post|].
  by destruct (ascii_dec c c).
Qed.

Lemma prefix_inv (needle text : string) :
  String.prefix needle text = true -> exists post, text = needle +:+ post.
Proof.
  revert text. induction needle as [|c needle IH]; intros text H.
  - by exists text.
  - destruct text as [|c' text]; simpl in H; [discriminate H|].
    destruct (ascii_dec c c') as [<-|_]; [|discriminate H].
    destruct (IH text H) as [post ->]. by exists post.
Qed.

Lemma includes_prefix (needle text : string) :
  String.prefix needle text = true -> includes needle text = true.
Proof. intros H. destruct text; cbn [includes]; by rewrite H. Qed.

Lemma includes_append (needle pre post : string) :
  includes needle (pre +:+ needle +:+ post) = true.
Proof.
  induction pre as [|c pre IH].
  - change (EmptyString +:+ needle +:+ post) with (needle +:+ post).
    apply includes_prefix, prefix_append.
  - change (String c pre +:+ needle +:+ post)
      with (String c (pre +:+ needle +:+ post)).
    cbn [includes]. rewrite IH. apply orb_true_r.
Qed.

Lemma includes_inv (needle text : string) :
  includes needle text = true ->
  exists pre post, text = pre +:+ needle +:+ post.
Proof.
  induction text as [|c text IH]; intros H.
  - cbn [includes] in H. rewrite orb_false_r in H.
    destruct (prefix_inv _ _ H) as [post ->]. by exists EmptyString, post.
  - cbn [includes] in H. apply orb_true_iff in H as [H|H].
    + destruct (prefix_inv needle (String c text) H) as [post ->].
      by exists EmptyString, post.
    + destruct (IH H) as (pre & post & ->). by exists (String c pre), post.
Qed.

(** X9: what the error handler answers.  For the errors of the services:
    an [AppError] keeps its status and message; the version conflict is
    answered 409; insufficient funds 400 with the message; every other
    error, each refusal by the database among them, is answered 500 with
    the message withheld.  For any other [Error] the text decides: one that
    contains "Concurrent modification" is answered 409 whatever else it
    says, and only a text that contains "Insufficient funds" is echoed
    with status 400. *)
Theorem errorHandler_answers :
  (forall e,
     errorHandler (thrown e) =
       match e with
       | AppError statusCode text => (statusCode, text)
       | VersionConflict =>
           (409, "Concurrent modification detected. Please retry.")
       | InsufficientFunds =>
           (400, "Insufficient funds. Account cannot go negative.")
       | _ => (500, "Internal server error")
       end) /\
  (forall pre post,
     errorHandler (PlainError (pre +:+ "Concurrent modification" +:+ post))
       = (409, "Concurrent modification detected. Please retry.")) /\
  (forall text status answer,
     errorHandler (PlainError text) = (status, answer) ->
     (status = 409 /\
      exists pre post, text = pre +:+ "Concurrent modification" +:+ post) \/
     (status = 400 /\ answer = text /\
      exists pre post, text = pre +:+ "Insufficient funds" +:+ post) \/
     (status = 500 /\ answer = "Internal server error")).
Proof.
  split; [|split].
  - intros [[]| | | | |[[]| | |]|]; reflexivity.
  - intros pre post. unfold errorHandler.
    by rewrite includes_append.
  - intros text status answer. unfold errorHandler.
    destruct (includes "Concurrent modification" text) eqn:H1.
    { intros [= <- <-]. left. split; [done|]. by apply includes_inv. }
    destruct (includes "Insufficient funds" text) eqn:H2.
    { intros [= <- <-]. right. left. do 2 (split; [done|]).
      by apply includes_inv. }
    intros [= <- <-]. right. right. by split.
Qed.

Lemma errorHandler_answers_witness :
  errorHandler (PlainError "x: Insufficient funds")
    = (400, "x: Insufficient funds") /\
  exists pre post,
    "x: Insufficient funds" = pre +:+ "Insufficient funds" +:+ post.
Proof.
  destruct errorHandler_answers as (_ & _ & H).
  split; [reflexivity|].
  destruct (H "x: Insufficient funds" 400 "x: Insufficient funds" eq_refl)
    as [[E _]|[(_ & _ & Hx)|[E _]]];
    [discriminate E|exact Hx|discriminate E].
Defined.

(** ** The pages of a history *)

Lemma history_data_window (account_id : string) (page limit : Z) (db : Db) :
  1 <= page -> 0 < limit <= 100 ->
  history_data account_id page limit db =
    take (Z.to_nat limit)
      (drop ((Z.to_nat page - 1) * Z.to_nat limit)
         (merge_sort newer_first
            (filter (of_account account_id) (transactions db)))).
Proof.
  intros Hp Hl. unfold history_data, getTransactionHistory, history_query.
  cbn [hq_page hq_limit hq_account_id].
  rewrite !or_number_nonzero by lia.
  rewrite Z.min_l by lia.
  unfold select_history.
  destruct (Z.ltb_spec ((page - 1) * limit) 0) as [Hneg|_]; [nia|].
  destruct (Z.ltb_spec limit 0) as [Hneg|_]; [lia|].
  cbn [pr_data]. rewrite map_mapTransaction.
  replace (Z.to_nat ((page - 1) * limit))
    with ((Z.to_nat page - 1) * Z.to_nat limit)%nat; [done|].
  rewrite Z2Nat.inj_mul by lia. f_equal. lia.
Qed.

Lemma windows_concat {A} (l : list A) (k n : nat) :
  concat (map (fun p => take k (drop ((p - 1) * k) l)) (seq 1 n))
    = take (n * k) l.
Proof.
  induction n as [|n IH]; [done|].
  rewrite seq_S, map_app, concat_app, IH. simpl.
  rewrite app_nil_r, Nat.sub_0_r.
  rewrite take_take_drop. f_equal. lia.
Qed.



(** ** The history route *)

Lemma getTransactionHistory_Ok (query : TransactionHistoryQuery) (db : Db) :
  1 <= or_number (hq_page query) 1 ->
  1 <= or_number (hq_limit query) 20 ->
  exists resp,
    getTransactionHistory query db = Ok resp /\
    pr_page resp = or_number (hq_page query) 1 /\
    pr_limit resp = Z.min (or_number (hq_limit query) 20) 100.
Proof.
  intros Hp Hl. unfold getTransactionHistory, select_history.
  destruct (Z.ltb_spec
              ((or_number (hq_page query) 1 - 1)
               * Z.min (or_number (hq_limit query) 20) 100) 0) as [Hneg|_];
    [nia|].
  destruct (Z.ltb_spec (Z.min (or_number (hq_limit query) 20) 100) 0)
    as [Hneg|_]; [lia|].
  eexists. split; [reflexivity|]. by split.
Qed.

Lemma or_number_guarded (x : JsNumber) (fallback : Z) :
  1 <= fallback -> less_than_one x = false ->
  1 <= or_number (Some x) fallback.
Proof.
  intros Hf Hx. destruct x as [|z]; simpl; [done|].
  simpl in Hx. apply Z.ltb_ge in Hx.
  destruct (Z.eqb_spec z 0); lia.
Qed.



(** ** Idempotency records, from the store to the replay *)

Lemma perform_keeps (op : Operation) (db : Db) (h : string)
    (r : IdempotencyKeyRow) :
  idempotency_keys db !! h = Some r ->
  idempotency_keys (perform op db) !! h = Some r.
Proof.
  intros Hr. destruct op as [id now request|now transactionId request
                            |now debitId creditId request|call]; simpl.
  - destruct (createAccount_cases id now request db) as [[e ->]|(_ & _ & ->)];
      exact Hr.
  - rewrite recordTransaction_cases.
    destruct (accounts db !! rt_account_id request) as [r0|]; [|exact Hr].
    cbn zeta. repeat case_match; exact Hr.
  - by rewrite transfer_changes_nothing.
  - by apply run_store_keeps.
Qed.

Lemma perform_all_keeps (ops : list Operation) (db : Db) (h : string)
    (r : IdempotencyKeyRow) :
  idempotency_keys db !! h = Some r ->
  idempotency_keys (perform_all ops db) !! h = Some r.
Proof.
  revert db. induction ops as [|op ops IH]; intros db Hr; [exact Hr|].
  apply (IH (perform op db)). by apply perform_keeps.
Qed.

Lemma stored_row_stays (date now : Z) (keyHash method path : string)
    (status : Z) (body : string) (db : Db) (ops : list Operation) :
  idempotency_keys db !! keyHash = None ->
  idempotency_keys
    (perform_all ops
       (storeIdempotencyRecord date now keyHash method path status body db))
    !! keyHash
  = Some {| ik_request_method := method; ik_request_path := path;
            ik_response_status := status; ik_response_body := body;
            ik_created_at := now; ik_expires_at := date + 24 * 3600000 |}.
Proof.
  intros Hfree. apply perform_all_keeps.
  unfold storeIdempotencyRecord, insert_idempotency_key.
  rewrite Hfree. simpl. by rewrite lookup_insert_eq.
Qed.





(** ** The shape of a hash *)

Lemma round_length (st : list Z) (kw : Z * Z) :
  length (SHA256.round st kw) = length st.
Proof.
  unfold SHA256.round.
  do 9 (destruct st as [|? st]; [reflexivity|]). reflexivity.
Qed.

Lemma rounds_length (kws : list (Z * Z)) (st : list Z) :
  length (fold_left SHA256.round kws st) = length st.
Proof.
  revert st. induction kws as [|kw kws IH]; intros st; [done|].
  simpl. by rewrite IH, round_length.
Qed.

Lemma compress_length (hash block : list Z) :
  length (SHA256.compress hash block) = length hash.
Proof.
  unfold SHA256.compress.
  rewrite length_map, length_combine, rounds_length. lia.
Qed.

Lemma blocks_length (n : nat) (hash ws : list Z) :
  length (SHA256.blocks n hash ws) = length hash.
Proof.
  revert hash ws. induction n as [|n IH]; intros hash ws; [done|].
  simpl. by rewrite IH, compress_length.
Qed.

Lemma hex_digit_lower (d : Z) :
  0 <= d < 16 -> is_lower_hex (SHA256.hex_digit d) = true.
Proof.
  intros Hd.
  assert (Hcases : d = 0 \/ d = 1 \/ d = 2 \/ d = 3 \/ d = 4 \/ d = 5 \/
                   d = 6 \/ d = 7 \/ d = 8 \/ d = 9 \/ d = 10 \/ d = 11 \/
                   d = 12 \/ d = 13 \/ d = 14 \/ d = 15) by lia.
  repeat (destruct Hcases as [->|Hcases]; [reflexivity|]).
  by rewrite Hcases.
Qed.

Lemma hex_shape (n : nat) (x : Z) :
  String.length (SHA256.hex n x) = n /\
  Forall (fun c => is_lower_hex c = true)
    (list_ascii_of_string (SHA256.hex n x)).
Proof.
  induction n as [|n [IHlen IHall]]; [by split|].
  split; simpl; [by rewrite IHlen|].
  apply List.Forall_cons; [|exact IHall].
  apply hex_digit_lower. apply Z.mod_pos_bound. lia.
Qed.

Lemma append_shape (s1 s2 : string) :
  String.length (s1 +:+ s2) = (String.length s1 + String.length s2)%nat /\
  list_ascii_of_string (s1 +:+ s2)
    = (list_ascii_of_string s1 ++ list_ascii_of_string s2)%list.
Proof.
  induction s1 as [|c s1 [IHlen IHall]]; [by split|].
  split; simpl; [by rewrite IHlen|by rewrite IHall].
Qed.

Lemma sha256_hex_shape (ws : list Z) :
  let text := fold_right (fun w acc => SHA256.hex 8 w +:+ acc) EmptyString ws
  in
  String.length text = (8 * length ws)%nat /\
  Forall (fun c => is_lower_hex c = true) (list_ascii_of_string text).
Proof.
  induction ws as [|w ws [IHlen IHall]]; [by split|].
  cbn zeta in *. cbn [fold_right].
  destruct (append_shape (SHA256.hex 8 w)
              (fold_right (fun w acc => SHA256.hex 8 w +:+ acc) EmptyString
                 ws)) as [-> ->].
  destruct (hex_shape 8 w) as [-> Hw].
  split; [rewrite IHlen; cbn [length]; lia|]. apply Forall_app. by split.
Qed.

(** X14: whatever the method, path and key, the idempotency hash is a text
    of exactly 64 characters, each a digit or a letter from [a] to [f]. *)
Theorem generateIdempotencyKeyHash_shape (method path key : string) :
  String.length (generateIdempotencyKeyHash method path key) = 64%nat /\
  Forall (fun c => is_lower_hex c = true)
    (list_ascii_of_string (generateIdempotencyKeyHash method path key)).
Proof.
  unfold generateIdempotencyKeyHash, SHA256.sha256_hex. cbn zeta.
  set (ws := SHA256.digest _).
  destruct (sha256_hex_shape ws) as [Hlen Hall].
  split; [|exact Hall]. rewrite Hlen.
  unfold ws, SHA256.digest. cbn zeta. by rewrite blocks_length.
Qed.

Lemma append_assoc (a b c : string) :
  (a +:+ b) +:+ c = a +:+ (b +:+ c).
Proof.
  induction a as [|x a IH]; [reflexivity|].
  change (String x ((a +:+ b) +:+ c) = String x (a +:+ (b +:+ c))).
  by rewrite IH.
Qed.

(** X15: the hash is taken of method, path and key joined by colons, so a
    colon may move between the parts: a path [p ++ ":" ++ k] with key [k']
    and a path [p] with key [k ++ ":" ++ k'] have the same hash. *)
Theorem generateIdempotencyKeyHash_joins (method p k k' : string) :
  generateIdempotencyKeyHash method (p +:+ ":" +:+ k) k'
    = generateIdempotencyKeyHash method p (k +:+ ":" +:+ k').
Proof.
  unfold generateIdempotencyKeyHash. cbn zeta.
  by rewrite !append_assoc.
Qed.

(** ** What the schemas let through *)

Lemma issues_cons (name : string) (check : Check)
    (shape : list (string * Check)) (fields : list (string * Json)) :
  issues ((name, check) :: shape) (JObject fields) = [] ->
  check (field name fields) = None /\ issues shape (JObject fields) = [].
Proof.
  unfold issues. cbn [omap list_omap fst snd].
  destruct (check (field name fields)); [discriminate|done].
Qed.

Lemma validateRequest_None (shape : list (string * Check)) (body : Body) :
  validateRequest shape body = None ->
  exists fields, body = JObject fields /\ issues shape (JObject fields) = [].
Proof.
  unfold validateRequest. intros H.
  destruct body as [fields|]; [|discriminate H].
  exists fields. split; [done|].
  by destruct (issues shape (JObject fields)).
Qed.

Lemma z_string_uuid_None (is_uuid : string -> bool) (v : option Json) :
  z_string_uuid is_uuid v = None ->
  exists s, v = Some (JString s) /\ is_uuid s = true.
Proof.
  destruct v as [[| | |s|]|]; simpl; try discriminate.
  destruct (is_uuid s) eqn:Hs; [|discriminate]. by exists s.
Qed.

Lemma z_enum_None (values : list string) (v : option Json) :
  z_enum values v = None -> exists s, v = Some (JString s) /\ s ∈ values.
Proof.
  destruct v as [[| | |s|]|]; simpl; try discriminate.
  destruct (bool_decide_reflect (s ∈ values)); [|discriminate]. by exists s.
Qed.

Lemma z_number_positive_None (v : option Json) :
  z_number_positive v = None -> exists n, v = Some (JNumber n) /\ 0 < n.
Proof.
  destruct v as [[| |n| |]|]; simpl; try discriminate.
  destruct (Z.ltb_spec 0 n); [|discriminate]. by exists n.
Qed.

Lemma z_string_min1_None (v : option Json) :
  z_string_min1 v = None -> exists s, v = Some (JString s) /\ s <> "".
Proof.
  destruct v as [[| | |s|]|]; simpl; try discriminate.
  destruct (String.eqb_spec s ""); [discriminate|]. by exists s.
Qed.



(** ** Postings in flight at once, in general *)

Lemma serial_snoc (jobs : list Concurrent.Job) (order : list nat) (i : nat)
    (job : Concurrent.Job) (db : Db) :
  jobs !! i = Some job ->
  let done :=
    recordTransaction (Concurrent.job_now job)
      (Concurrent.job_transactionId job) (Concurrent.job_request job)
      (fst (serial jobs order db)) in
  serial jobs (order ++ [i]) db =
    (snd done, (snd (serial jobs order db) ++ [(i, fst done)])%list).
Proof.
  intros Hjob. revert db.
  induction order as [|k order IH]; intros db; simpl.
  - by rewrite Hjob.
  - destruct (jobs !! k) as [job'|]; [|apply IH].
    simpl. by rewrite IH.
Qed.

Lemma recordTransaction_never_conflicts (now : Z) (transactionId : string)
    (request : RecordTransactionRequest) (db : Db) :
  fst (recordTransaction now transactionId request db) <> Err VersionConflict.
Proof.
  rewrite recordTransaction_cases.
  destruct (accounts db !! rt_account_id request); [|done].
  cbn zeta. repeat case_match; done.
Qed.

Lemma recordTransaction_other_accounts (now : Z) (transactionId : string)
    (request : RecordTransactionRequest) (db : Db) (j : string) :
  j <> rt_account_id request \/ accounts db !! rt_account_id request = None ->
  accounts (snd (recordTransaction now transactionId request db)) !! j
    = accounts db !! j.
Proof.
  intros Hj. rewrite recordTransaction_cases.
  destruct (accounts db !! rt_account_id request) as [r|] eqn:Hr; [|done].
  destruct Hj as [Hj|Hj]; [|discriminate Hj].
  cbn zeta. repeat case_match; try done.
  simpl. by rewrite lookup_insert_ne.
Qed.

Lemma recordTransaction_nonneg (now : Z) (transactionId : string)
    (request : RecordTransactionRequest) (db : Db) :
  nonneg_balances db ->
  nonneg_balances (snd (recordTransaction now transactionId request db)).
Proof.
  intros Hdb. rewrite recordTransaction_cases.
  destruct (accounts db !! rt_account_id request) as [r|] eqn:Hr; [|done].
  cbn zeta.
  destruct (Z.ltb_spec (balance_wanted request r) 0);
    [by case_match|].
  repeat case_match; try done.
  intros id r' Hid. simpl in Hid.
  destruct (decide (id = rt_account_id request)) as [E|Hne].
  - rewrite E, lookup_insert_eq in Hid. injection Hid as <-. simpl. lia.
  - rewrite lookup_insert_ne in Hid by done. by apply (Hdb id).
Qed.

Lemma serial_sound (jobs : list Concurrent.Job) (order : list nat) (db : Db) :
  (forall i outcome, (i, outcome) ∈ snd (serial jobs order db) ->
     outcome <> Err VersionConflict) /\
  (nonneg_balances db -> nonneg_balances (fst (serial jobs order db))).
Proof.
  revert db. induction order as [|k order IH]; intros db; simpl.
  - split; [|done]. intros i outcome H. by apply elem_of_nil in H.
  - destruct (jobs !! k) as [job|]; [|apply IH]. simpl.
    destruct (IH (snd (recordTransaction (Concurrent.job_now job)
                         (Concurrent.job_transactionId job)
                         (Concurrent.job_request job) db))) as [IH1 IH2].
    split.
    + intros i outcome H. apply elem_of_cons in H as [E|H].
      * injection E as -> ->. apply recordTransaction_never_conflicts.
      * by apply (IH1 i).
    + intros Hdb. apply IH2. by apply recordTransaction_nonneg.
Qed.

(** The unit of work of a holder is [recordTransaction] on the committed
    tables. *)
Lemma holder_is_recordTransaction (now : Z) (transactionId : string)
    (request : RecordTransactionRequest) (db : Db)
    (account : option Account) :
  match accounts db !! rt_account_id request with
  | Some r => account = Some (account_of_row (rt_account_id request) r)
  | None => account = None
  end ->
  transaction now (recordTransaction_locked transactionId request account) db
    = recordTransaction now transactionId request db.
Proof.
  intros Hacc.
  destruct (recordTransaction_as_locked now transactionId request db)
    as (account' & client & Hlock & ->).
  destruct (accounts db !! rt_account_id request) as [r|] eqn:Hr.
  - rewrite (getAccountWithLock_Some _ _ r) in Hlock by exact Hr.
    injection Hlock as <- _. by rewrite Hacc.
  - rewrite getAccountWithLock_None in Hlock by exact Hr.
    injection Hlock as <- _. by rewrite Hacc.
Qed.

Lemma unlocked_not_held (id : string) (w : Concurrent.World) (i : nat)
    (p : Concurrent.Phase) :
  Concurrent.locked id w = false ->
  Concurrent.phases w !! i = Some p -> id ∉ Concurrent.held p.
Proof.
  intros Hfree Hi Hin. unfold Concurrent.locked in Hfree.
  apply bool_decide_eq_false_1 in Hfree. apply Hfree.
  apply list_elem_of_In, in_concat. exists (Concurrent.held p).
  split; [|by apply list_elem_of_In].
  apply list_elem_of_In, list_elem_of_fmap. exists p.
  split; [done|]. by eapply list_elem_of_lookup_2.
Qed.

Lemma start_serializes (jobs : list Concurrent.Job) (db : Db) :
  Serializes jobs db (Concurrent.start jobs db) [].
Proof.
  assert (Hwait : forall i p,
            Concurrent.phases (Concurrent.start jobs db) !! i = Some p ->
            p = Concurrent.Waiting).
  { intros i p H. simpl in H. rewrite list_lookup_fmap in H.
    destruct (jobs !! i); simpl in H; [by injection H|discriminate H]. }
  split.
  - simpl. by rewrite length_map.
  - constructor.
  - intros i H. by apply elem_of_nil in H.
  - reflexivity.
  - intros i outcome. simpl. split.
    + intros H. apply Hwait in H. discriminate H.
    + intros H. by apply elem_of_nil in H.
  - intros i job account locks _ H. apply Hwait in H. discriminate H.
  - intros i j p q id Hp _ Hin. apply Hwait in Hp. subst p.
    by apply elem_of_nil in Hin.
Qed.

(** Being granted the lock. *)
Lemma acquire_serializes (jobs : list Concurrent.Job) (db : Db)
    (w : Concurrent.World) (order : list nat) (i : nat)
    (job : Concurrent.Job) :
  Serializes jobs db w order ->
  jobs !! i = Some job ->
  Concurrent.phases w !! i = Some Concurrent.Waiting ->
  let id := rt_account_id (Concurrent.job_request job) in
  Concurrent.locked id w = false ->
  forall account locks,
    match accounts (Concurrent.committed w) !! id with
    | Some r => account = Some (account_of_row id r) /\ locks = [id]
    | None => account = None /\ locks = []
    end ->
    Serializes jobs db
      {| Concurrent.committed := Concurrent.committed w;
         Concurrent.phases :=
           <[i := Concurrent.Holding account locks]> (Concurrent.phases w) |}
      order.
Proof.
  intros Hinv Hjob Hi id Hfree account locks Hread.
  assert (Hheld : forall k, k ∈ locks -> k = id).
  { intros k Hk. destruct (accounts (Concurrent.committed w) !! id).
    - destruct Hread as [_ ->]. by apply list_elem_of_singleton in Hk.
    - destruct Hread as [_ ->]. by apply elem_of_nil in Hk. }
  split; simpl.
  - rewrite length_insert. by destruct Hinv.
  - by destruct Hinv.
  - intros k Hk. destruct (ser_ended _ _ _ _ Hinv k Hk) as [outcome Ho].
    exists outcome. rewrite list_lookup_insert_ne; [done|].
    intros <-. rewrite Hi in Ho. discriminate Ho.
  - by destruct Hinv.
  - intros k outcome. rewrite <- (ser_outcomes _ _ _ _ Hinv k outcome).
    destruct (decide (k = i)) as [->|Hne].
    + rewrite list_lookup_insert_eq by by eapply lookup_lt_Some.
      rewrite Hi. split; discriminate.
    + by rewrite list_lookup_insert_ne.
  - intros k job' account' locks' Hjob' Hk.
    destruct (phase_after_insert _ _ _ _ _ _ Hi Hk) as [[-> E]|[_ Hold]].
    + injection E as <- <-. rewrite Hjob in Hjob'. injection Hjob' as <-.
      exact Hread.
    + by apply (ser_holding _ _ _ _ Hinv k).
  - intros k l p q x Hk Hl Hp Hq.
    destruct (phase_after_insert _ _ _ _ _ _ Hi Hk) as [[-> ->]|[Hki Hk']];
      destruct (phase_after_insert _ _ _ _ _ _ Hi Hl) as [[-> ->]|[Hli Hl']].
    + done.
    + simpl in Hp. apply Hheld in Hp. subst x.
      by destruct (unlocked_not_held id w l q Hfree Hl').
    + simpl in Hq. apply Hheld in Hq. subst x.
      by destruct (unlocked_not_held id w k p Hfree Hk').
    + by apply (ser_exclusive _ _ _ _ Hinv k l p q x).
Qed.

(** The end of a unit of work. *)
Lemma commit_serializes (jobs : list Concurrent.Job) (db : Db)
    (w : Concurrent.World) (order : list nat) (i : nat)
    (job : Concurrent.Job) (account : option Account)
    (locks : list string) :
  Serializes jobs db w order ->
  jobs !! i = Some job ->
  Concurrent.phases w !! i = Some (Concurrent.Holding account locks) ->
  let done :=
    recordTransaction (Concurrent.job_now job)
      (Concurrent.job_transactionId job) (Concurrent.job_request job)
      (Concurrent.committed w) in
  transaction (Concurrent.job_now job)
    (recordTransaction_locked (Concurrent.job_transactionId job)
       (Concurrent.job_request job) account) (Concurrent.committed w)
    = done /\
  Serializes jobs db
    {| Concurrent.committed := snd done;
       Concurrent.phases :=
         <[i := Concurrent.Finished (fst done)]> (Concurrent.phases w) |}
    (order ++ [i]).
Proof.
  intros Hinv Hjob Hi done.
  pose proof (ser_holding _ _ _ _ Hinv i job account locks Hjob Hi) as Hread.
  cbn zeta in Hread.
  assert (Hnotin : i ∉ order).
  { intros Hin. destruct (ser_ended _ _ _ _ Hinv i Hin) as [outcome Ho].
    rewrite Hi in Ho. discriminate Ho. }
  pose proof (serial_snoc jobs order i job db Hjob) as Hsnoc.
  cbn zeta in Hsnoc. rewrite <- (ser_committed _ _ _ _ Hinv) in Hsnoc.
  fold done in Hsnoc.
  split.
  { apply holder_is_recordTransaction.
    destruct (accounts (Concurrent.committed w)
                !! rt_account_id (Concurrent.job_request job));
      by destruct Hread. }
  split; simpl.
  - rewrite length_insert. by destruct Hinv.
  - apply NoDup_app. split; [by destruct Hinv|]. split.
    + intros k Hk Hk'. apply list_elem_of_singleton in Hk'. by subst k.
    + apply NoDup_singleton.
  - intros k Hk. apply elem_of_app in Hk as [Hk|Hk].
    + destruct (ser_ended _ _ _ _ Hinv k Hk) as [outcome Ho].
      exists outcome. rewrite list_lookup_insert_ne; [done|].
      intros <-. by destruct Hnotin.
    + apply list_elem_of_singleton in Hk. subst k. exists (fst done).
      apply list_lookup_insert_eq. by eapply lookup_lt_Some.
  - by rewrite Hsnoc.
  - intros k outcome. rewrite Hsnoc. simpl. rewrite elem_of_app.
    rewrite <- (ser_outcomes _ _ _ _ Hinv k outcome).
    rewrite list_elem_of_singleton.
    destruct (decide (k = i)) as [->|Hne].
    + rewrite list_lookup_insert_eq by by eapply lookup_lt_Some.
      rewrite Hi. split.
      * intros [= <-]. by right.
      * intros [H|H]; [discriminate H|]. by injection H as ->.
    + rewrite list_lookup_insert_ne by done. split; [by left|].
      intros [H|H]; [done|]. injection H as -> _. by destruct Hne.
  - intros k job' account' locks' Hjob' Hk.
    destruct (phase_after_insert _ _ _ _ _ _ Hi Hk) as [[_ E]|[Hki Hold]];
      [discriminate E|].
    pose proof (ser_holding _ _ _ _ Hinv k job' account' locks' Hjob' Hold)
      as Hread'.
    cbn zeta in Hread'. unfold done.
    rewrite recordTransaction_other_accounts; [exact Hread'|].
    destruct (accounts (Concurrent.committed w)
                !! rt_account_id (Concurrent.job_request job))
      as [r|] eqn:Hr; [|by right].
    left. intros E. rewrite E, Hr in Hread'.
    destruct Hread as [_ ->]. destruct Hread' as [_ ->].
    apply Hki.
    apply (ser_exclusive _ _ _ _ Hinv k i _ _
             (rt_account_id (Concurrent.job_request job)) Hold Hi);
      simpl; by apply list_elem_of_singleton.
  - intros k l p q x Hk Hl Hp Hq.
    destruct (phase_after_insert _ _ _ _ _ _ Hi Hk) as [[-> ->]|[Hki Hk']];
      [by apply elem_of_nil in Hp|].
    destruct (phase_after_insert _ _ _ _ _ _ Hi Hl) as [[-> ->]|[Hli Hl']];
      [by apply elem_of_nil in Hq|].
    by apply (ser_exclusive _ _ _ _ Hinv k l p q x).
Qed.

Lemma step_serializes (jobs : list Concurrent.Job) (db : Db)
    (w w' : Concurrent.World) (order : list nat) (i : nat) :
  Serializes jobs db w order ->
  Concurrent.step jobs i w = Some w' ->
  exists order', Serializes jobs db w' order'.
Proof.
  intros Hinv. unfold Concurrent.step.
  destruct (jobs !! i) as [job|] eqn:Hjob; [|discriminate].
  destruct (Concurrent.phases w !! i) as [[|account locks|outcome]|] eqn:Hi;
    try discriminate.
  - destruct (Concurrent.locked _ w) eqn:Hfree; [discriminate|].
    destruct (accounts (Concurrent.committed w)
                !! rt_account_id (Concurrent.job_request job))
      as [r|] eqn:Hr.
    + rewrite (getAccountWithLock_Some _ _ r) by exact Hr.
      intros [= <-]. exists order.
      apply (acquire_serializes jobs db w order i job Hinv Hjob Hi Hfree).
      by rewrite Hr.
    + rewrite getAccountWithLock_None by exact Hr.
      intros [= <-]. exists order.
      apply (acquire_serializes jobs db w order i job Hinv Hjob Hi Hfree).
      by rewrite Hr.
  - destruct (commit_serializes jobs db w order i job account locks Hinv
                Hjob Hi) as [-> Hinv'].
    destruct (recordTransaction _ _ _ _) as [outcome db'].
    intros [= <-]. by exists (order ++ [i])%list.
Qed.

Lemma run_serializes (jobs : list Concurrent.Job) (db : Db)
    (schedule : list nat) (w w' : Concurrent.World) (order : list nat) :
  Serializes jobs db w order ->
  Concurrent.run jobs schedule w = Some w' ->
  exists order', Serializes jobs db w' order'.
Proof.
  revert w order. induction schedule as [|i schedule IH];
    intros w order Hinv Hrun; simpl in Hrun.
  - injection Hrun as <-. by exists order.
  - destruct (Concurrent.step jobs i w) as [w1|] eqn:Hstep;
      [|discriminate Hrun].
    destruct (step_serializes jobs db w w1 order i Hinv Hstep)
      as [order1 Hinv1].
    by apply (IH w1 order1).
Qed.



(** ** The lock of a posting *)

Lemma new_balance_locks (request : RecordTransactionRequest)
    (account : Account) (s : Session) :
  row_locks (snd (new_balance request account s)) = row_locks s.
Proof.
  unfold new_balance, ret, throw. by repeat case_match.
Qed.

Lemma recordTransaction_locked_locks (transactionId : string)
    (request : RecordTransactionRequest) (account : option Account)
    (s : Session) :
  row_locks (snd (recordTransaction_locked transactionId request account s))
    = row_locks s.
Proof.
  unfold recordTransaction_locked. destruct account as [account|]; [|done].
  apply bind_locks; [apply new_balance_locks|].
  intros newBalance s1 H1.
  apply bind_locks; [by rewrite updateAccountBalance_locks|].
  intros _ s2 H2.
  apply bind_locks; [by rewrite insert_transaction_locks|].
  intros [|row rows] s3 H3; exact H3.
Qed.

(** X18: the unit of work of [recordTransaction] asks for one row lock, on
    the account named in the request, and for none when there is no such
    account; whether it then commits or rolls back plays no part. *)
Theorem recordTransaction_locks (now : Z) (transactionId : string)
    (request : RecordTransactionRequest) (db : Db) :
  locks_requested now (recordTransaction_callback transactionId request) db =
    if decide (is_Some (accounts db !! rt_account_id request))
    then [rt_account_id request] else [].
Proof.
  unfold locks_requested, recordTransaction_callback.
  destruct (accounts db !! rt_account_id request) as [r|] eqn:Hr.
  - rewrite decide_True by done.
    rewrite (bind_Ok _ _ _ _ _
               (getAccountWithLock_Some _ (begin now db) r Hr)).
    by rewrite recordTransaction_locked_locks.
  - rewrite decide_False by (by intros [? ?]).
    rewrite (bind_Ok _ _ _ _ _
               (getAccountWithLock_None _ (begin now db) Hr)).
    by rewrite recordTransaction_locked_locks.
Qed.

(** ** Looking an account up by its owner *)

(** X19: where no owner has two accounts in one currency,
    [getAccountByUserIdAndCurrency] returns an account exactly when it is
    the stored account of that owner in that currency, and returns nothing
    exactly when the owner has no account in that currency. *)
Theorem getAccountByUserIdAndCurrency_finds (userId : string)
    (currency : Currency) (db : Db) :
  (forall id1 id2 r1 r2,
     accounts db !! id1 = Some r1 -> accounts db !! id2 = Some r2 ->
     row_user_id r1 = row_user_id r2 -> row_currency r1 = row_currency r2 ->
     id1 = id2) ->
  (forall account,
     getAccountByUserIdAndCurrency userId currency db = Some account <->
     exists r,
       accounts db !! acct_id account = Some r /\
       account = account_of_row (acct_id account) r /\
       row_user_id r = userId /\ row_currency r = currency) /\
  (getAccountByUserIdAndCurrency userId currency db = None <->
   forall id r, accounts db !! id = Some r ->
     row_user_id r = userId -> row_currency r <> currency).
Proof.
  intros Huniq. split.
  - intros account. unfold getAccountByUserIdAndCurrency, select_accounts_of.
    destruct (map_to_list (owned_by userId currency db)) as [|[id r] l]
      eqn:Hl; simpl.
    + split; [discriminate|]. intros (r & Hr & _ & Hu & Hc).
      apply map_to_list_empty_iff in Hl.
      assert (E : owned_by userId currency db !! acct_id account = Some r)
        by by apply owned_by_lookup.
      rewrite Hl in E. by rewrite lookup_empty in E.
    + assert (Hin : owned_by userId currency db !! id = Some r).
      { apply elem_of_map_to_list. rewrite Hl. by left. }
      apply owned_by_lookup in Hin as (Hr & Hu & Hc).
      rewrite mapAccount_id. split.
      * intros [= <-]. by exists r.
      * intros (r' & Hr' & -> & Hu' & Hc'). simpl in *.
        assert (E : id = acct_id account).
        { apply (Huniq _ _ r r'); congruence. }
        subst id. rewrite Hr in Hr'. by injection Hr' as <-.
  - rewrite <- select_accounts_of_nil.
    unfold getAccountByUserIdAndCurrency.
    by destruct (select_accounts_of userId currency db).
Qed.

Lemma getAccountByUserIdAndCurrency_finds_witness :
  getAccountByUserIdAndCurrency "carol" INR sample_db
    = Some (account_of_row "c" (sample_row "carol" INR 5000 3)).
Proof.
  destruct (getAccountByUserIdAndCurrency_finds "carol" INR sample_db)
    as [H _].
  - intros id1 id2 r1 r2 H1 H2. unfold sample_db in H1, H2. simpl in H1, H2.
    rewrite !lookup_insert_Some, lookup_empty in H1.
    rewrite !lookup_insert_Some, lookup_empty in H2.
    destruct H1 as [[<- <-]|[_ [[<- <-]|[_ [[<- <-]|[_ H1]]]]]];
      try discriminate H1;
      destruct H2 as [[<- <-]|[_ [[<- <-]|[_ [[<- <-]|[_ H2]]]]]];
      try discriminate H2; simpl; intros; done.
  - apply H. exists (sample_row "carol" INR 5000 3). by vm_compute.
Defined.

(** ** A posting, then the history *)

(** X20: after a [recordTransaction] that succeeded at a time later than
    every earlier row of the account, the first page of the account's
    history, whatever its size from 1 to 100, starts with the row that was
    returned, and the total has grown by one. *)
Theorem posting_heads_history (now : Z) (transactionId : string)
    (request : RecordTransactionRequest) (db db' : Db) (t : Transaction)
    (limit : Z) :
  recordTransaction now transactionId request db = (Ok t, db') ->
  (forall t0, t0 ∈ transactions db ->
     tx_account_id t0 = rt_account_id request -> tx_created_at t0 < now) ->
  0 < limit <= 100 ->
  exists resp rest,
    getTransactionHistory
      (history_query (rt_account_id request) (Some (Num 1))
         (Some (Num limit))) db' = Ok resp /\
    pr_data resp = t :: rest /\
    pr_total resp = count_transactions (rt_account_id request) db + 1.
Proof.
  intros Hrun Hlater Hlimit.
  apply recordTransaction_Ok_shape in Hrun
    as (r & Hr & _ & _ & _ & Ht & ->).
  set (id := rt_account_id request) in *.
  destruct (getTransactionHistory_valid
              (posted_db now request r (balance_wanted request r) t db)
              id 1 limit ltac:(lia) Hlimit)
    as (sorted & Hresp & Hperm & Hsorted).
  assert (Hrows : filter (of_account id)
                    (transactions
                       (posted_db now request r (balance_wanted request r)
                          t db))
                  = (filter (of_account id) (transactions db) ++ [t])%list).
  { simpl. rewrite rows_after_posting. rewrite decide_True; [done|].
    by rewrite Ht. }
  rewrite Hrows in Hperm.
  assert (Hnow : tx_created_at t = now) by by rewrite Ht.
  assert (Hhead : exists rest, sorted = t :: rest).
  { destruct sorted as [|h rest].
    - apply Permutation_nil_l in Hperm.
      by destruct (app_cons_not_nil _ _ _ Hperm).
    - exists rest. f_equal.
      assert (Hh : h ∈ (filter (of_account id) (transactions db)
                          ++ [t])%list).
      { rewrite <- Hperm. by left. }
      assert (Ht' : t ∈ h :: rest).
      { rewrite Hperm. apply elem_of_app. right. by left. }
      apply elem_of_app in Hh as [Hh|Hh];
        [|by apply list_elem_of_singleton in Hh].
      apply list_elem_of_filter in Hh as [Hacc Hold].
      pose proof (Hlater h Hold Hacc) as Hearly.
      apply elem_of_cons in Ht' as [E|Hin]; [subst h; lia|].
      apply StronglySorted_inv in Hsorted as [_ Hall].
      rewrite Forall_forall in Hall. specialize (Hall t Hin).
      unfold newer_first in Hall. lia. }
  destruct Hhead as [rest ->].
  eexists _, (take (Z.to_nat limit - 1) rest). split; [exact Hresp|]. split.
  - simpl. destruct (Z.to_nat limit) as [|n] eqn:Hn; [lia|].
    simpl. by rewrite Nat.sub_0_r.
  - simpl. unfold count_transactions. rewrite Hrows, length_app. simpl. lia.
Qed.

Lemma posting_heads_history_witness :
  exists resp rest,
    getTransactionHistory (history_query "a" (Some (Num 1)) (Some (Num 2)))
      (snd (recordTransaction 10 "t9" sample_deposit sample_ledger))
      = Ok resp /\
    pr_data resp = sample_posted :: rest /\ pr_total resp = 4.
Proof.
  destruct (posting_heads_history 10 "t9" sample_deposit sample_ledger
              (snd (recordTransaction 10 "t9" sample_deposit sample_ledger))
              sample_posted 2) as (resp & rest & H1 & H2 & H3).
  - by vm_compute.
  - intros t0 Ht0 _. unfold sample_ledger in Ht0. simpl in Ht0.
    repeat (apply elem_of_cons in Ht0 as [->|Ht0]; [simpl; lia|]).
    by apply elem_of_nil in Ht0.
  - lia.
  - exists resp, rest. split; [exact H1|]. split; [exact H2|].
    rewrite H3. by vm_compute.
Defined.

(** ** Versions *)

Lemma versions_createAccount (id : string) (now : Z)
    (request : CreateAccountRequest) (db : Db) :
  consistent db -> versions_counted db ->
  versions_counted (snd (createAccount id now request db)).
Proof.
  intros Hc Hv.
  destruct (createAccount_cases id now request db)
    as [[e ->]|(Hid & _ & ->)]; [done|].
  intros j x Hj. simpl in Hj. unfold count_transactions. simpl.
  destruct (decide (id = j)) as [E|Hne].
  - rewrite E, lookup_insert_eq in Hj. injection Hj as <-.
    destruct (filter (of_account j) (transactions db)) as [|t rest] eqn:Ef;
      [done|].
    assert (Ht : t ∈ filter (of_account j) (transactions db))
      by (rewrite Ef; left).
    apply list_elem_of_filter in Ht as [Hacc Ht].
    destruct (rows_owned _ Hc t Ht) as [x Hx].
    unfold of_account in Hacc. rewrite Hacc, <- E, Hid in Hx.
    discriminate Hx.
  - rewrite lookup_insert_ne in Hj by done. by apply Hv.
Qed.

Lemma versions_recordTransaction (now : Z) (transactionId : string)
    (request : RecordTransactionRequest) (db : Db) :
  versions_counted db ->
  versions_counted (snd (recordTransaction now transactionId request db)).
Proof.
  intros Hv.
  destruct (recordTransaction now transactionId request db)
    as [[t|e] db'] eqn:H.
  2:{ simpl. by rewrite (transaction_rolls_back _ _ _ _ _ H). }
  apply recordTransaction_Ok_shape in H
    as (r & Hr & Hnn & Ha & Hid & -> & ->).
  pose proof (Hv _ _ Hr) as Hold.
  intros j x Hj. unfold count_transactions, posted_db in *. simpl in *.
  rewrite rows_after_posting. simpl.
  destruct (decide (rt_account_id request = j)) as [<-|Hne].
  - rewrite lookup_insert_eq in Hj. injection Hj as <-. simpl.
    rewrite length_app. simpl. lia.
  - rewrite lookup_insert_ne in Hj by done. by apply Hv.
Qed.

(** X21: in every database built from the empty tables by account
    creations, postings of any type, transfers and idempotency stores, the
    version of every account is the number of its transaction rows: a new
    account starts at zero, every posting that commits moves it by one,
    and nothing else moves it. *)
Theorem histories_count_versions (ops : list Operation) :
  versions_counted (perform_all ops empty_db).
Proof.
  assert (Hstep : forall op db,
    consistent db /\ versions_counted db ->
    consistent (perform op db) /\ versions_counted (perform op db)).
  { intros [id now request|now transactionId request
            |now debitId creditId request|call] db [Hc Hv]; simpl.
    - split; [by apply consistent_createAccount
             |by apply versions_createAccount].
    - split; [by apply consistent_recordTransaction
             |by apply versions_recordTransaction].
    - by rewrite transfer_changes_nothing.
    - destruct (run_store_ledger call db) as [Ha Ht].
      split.
      + destruct Hc as [Hids Hown Hchk Hrel Hbal Huniq].
        split; unfold transaction_ids, nonneg_balances in *;
          rewrite ?Ha, ?Ht; done.
      + unfold versions_counted, count_transactions in *.
        rewrite Ha, Ht. done. }
  assert (Hall : forall db,
    consistent db /\ versions_counted db ->
    versions_counted (perform_all ops db)).
  { unfold perform_all. induction ops as [|op ops IH]; intros db Hinv.
    - by destruct Hinv.
    - simpl. apply IH. by apply Hstep. }
  apply Hall. split.
  - split; simpl; try done.
    + apply NoDup_nil_2.
    + intros t Ht. inversion Ht.
    + intros t Ht. inversion Ht.
    + intros t r Ht. inversion Ht.
  - intros id r Hr. simpl in Hr. by rewrite lookup_empty in Hr.
Qed.
